(** * Median-cut colour quantisation and grid assembly (app.js)

    A shallow embedding of the quantisation kernel of the needlepoint
    pattern converter: [ColorBox], [medianCut], [findNearestColor],
    [rgbToHex] and the pure part of [processImage], followed by the
    properties of the pipeline.

    Conventions.
    - JS numbers that hold integers are [Z] (channel values, sums,
      distances, volumes, [maxColors]); array lengths, indices and tallies
      are [nat].
    - A pixel is the three-element array [[r, g, b]].
    - A JS [Map] is an insertion-ordered association list ([jsmap]); the
      plain objects [codeToHex] and [codeCounts], which are only written by
      key and read by key, are [gmap string _].
    - Exceptions and the two situations the integer model cannot represent
      are outcomes of type [exn]. *)

From Stdlib Require Import Floats.
From Stdlib Require Import ZArith Lia Ascii String.
From Stdlib Require Import DecimalNat DecimalZ DecimalString HexadecimalString.
From stdpp Require Import base option list strings gmap fin_maps sorting.

Local Open Scope Z_scope.

(** ** Outcomes *)

Inductive exn : Type :=
| TypeError       (* destructuring or calling a method of [undefined] *)
| DivisionByZero  (* [average] on a box without pixels: [0 / 0], NaN in JS *)
| OutOfFuel.      (* the bounded model of the [while] loop ran out of steps *)

Inductive outcome (A : Type) : Type :=
| Ok (a : A)
| Throw (e : exn).
Arguments Ok {A} a.
Arguments Throw {A} e.

#[export] Instance outcome_ret : MRet outcome := fun A a => Ok a.
#[export] Instance outcome_bind : MBind outcome := fun A B f m =>
  match m with
  | Ok a => f a
  | Throw e => Throw e
  end.

(** [arr.map(f)] where [f] may fail: left to right, the first failure wins. *)
Fixpoint mapM_outcome {A B : Type} (f : A -> outcome B) (l : list A)
  : outcome (list B) :=
  match l with
  | [] => Ok []
  | x :: l' => y ← f x; ys ← mapM_outcome f l'; Ok (y :: ys)
  end.

(** ** Array.prototype.sort

    [arr.sort(cmp)] is a stable sort: [a] goes before [b] when
    [cmp(a, b) < 0], and elements that compare equal keep their order.
    For a comparator that is a consistent ordering the result is unique;
    it is computed here by stable insertion. *)

Section JsSort.
Context {A : Type} (cmp : A -> A -> Z).

Fixpoint js_insert (x : A) (l : list A) : list A :=
  match l with
  | [] => [x]
  | y :: l' => if cmp x y <=? 0 then x :: y :: l' else y :: js_insert x l'
  end.

Fixpoint js_sort (l : list A) : list A :=
  match l with
  | [] => []
  | x :: l' => js_insert x (js_sort l')
  end.
End JsSort.

(** ** ColorBox *)

Abbreviation Pixel := (Z * Z * Z)%type.

(** The axis numbers 0, 1, 2 of [longestAxis]. *)
Inductive Axis : Type := Axis0 | Axis1 | Axis2.

(** [p[axis]] *)
Definition channel (axis : Axis) (p : Pixel) : Z :=
  let '(r, g, b) := p in
  match axis with Axis0 => r | Axis1 => g | Axis2 => b end.

Record ColorBox : Type := mkColorBox {
  pixels : list Pixel;
  rRange : Z;
  gRange : Z;
  bRange : Z
}.

(** One iteration of the loop of [computeBounds]; the state is
    [(rMin, rMax, gMin, gMax, bMin, bMax)]. *)
Definition bounds_step (st : Z * Z * Z * Z * Z * Z) (p : Pixel)
  : Z * Z * Z * Z * Z * Z :=
  let '(rMin, rMax, gMin, gMax, bMin, bMax) := st in
  let '(r, g, b) := p in
  (if r <? rMin then r else rMin, if rMax <? r then r else rMax,
   if g <? gMin then g else gMin, if gMax <? g then g else gMax,
   if b <? bMin then b else bMin, if bMax <? b then b else bMax).

Definition computeBounds (ps : list Pixel) : Z * Z * Z :=
  let '(rMin, rMax, gMin, gMax, bMin, bMax) :=
    fold_left bounds_step ps (255, 0, 255, 0, 255, 0) in
  (rMax - rMin, gMax - gMin, bMax - bMin).

(** [new ColorBox(pixels)] *)
Definition newColorBox (ps : list Pixel) : ColorBox :=
  let '(rr, gr, br) := computeBounds ps in
  {| pixels := ps; rRange := rr; gRange := gr; bRange := br |}.

Definition longestAxis (box : ColorBox) : Axis :=
  if (rRange box >=? gRange box) && (rRange box >=? bRange box) then Axis0
  else if (gRange box >=? rRange box) && (gRange box >=? bRange box) then Axis1
  else Axis2.

Definition volume (box : ColorBox) : Z :=
  rRange box * gRange box * bRange box.

Definition split (box : ColorBox) : ColorBox * ColorBox :=
  let axis := longestAxis box in
  let sorted := js_sort (fun a b => channel axis a - channel axis b) (pixels box) in
  let mid := (length sorted / 2)%nat in
  (newColorBox (take mid sorted), newColorBox (drop mid sorted)).

(** [Math.round(s / n)] for integers [s] and [n > 0]: the quotient rounded
    to the nearest integer, a half rounding up, that is
    [floor(s / n + 1/2)].  For a sum [s] of [n] bytes the double division
    gives this value as long as [n < 2^45], far above any canvas size. *)
Definition round_div (s n : Z) : Z := (2 * s + n) / (2 * n).

Definition sum_channel (axis : Axis) (ps : list Pixel) : Z :=
  fold_left (fun acc p => acc + channel axis p) ps 0.

Definition average (box : ColorBox) : outcome Pixel :=
  let rSum := sum_channel Axis0 (pixels box) in
  let gSum := sum_channel Axis1 (pixels box) in
  let bSum := sum_channel Axis2 (pixels box) in
  let n := length (pixels box) in
  if decide (n = 0%nat) then Throw DivisionByZero
  else Ok (round_div rSum (Z.of_nat n),
           round_div gSum (Z.of_nat n),
           round_div bSum (Z.of_nat n)).

(** The value of [average] on a box that has pixels. *)
Definition mean_pixel (ps : list Pixel) : Pixel :=
  (round_div (sum_channel Axis0 ps) (Z.of_nat (length ps)),
   round_div (sum_channel Axis1 ps) (Z.of_nat (length ps)),
   round_div (sum_channel Axis2 ps) (Z.of_nat (length ps))).

(** ** medianCut *)

(** The [for] loop that looks for the box to split, from index [i] on;
    [maxIdx = None] stands for [-1]. *)
Fixpoint select_box (i : nat) (boxes : list ColorBox)
    (maxVolume : Z) (maxIdx : option nat) : option nat :=
  match boxes with
  | [] => maxIdx
  | box :: rest =>
      if (1 <? length (pixels box))%nat && (maxVolume <? volume box)
      then select_box (S i) rest (volume box) (Some i)
      else select_box (S i) rest maxVolume maxIdx
  end.

(** [boxes.splice(maxIdx, 1, box1, box2)] *)
Definition splice2 (maxIdx : nat) (box1 box2 : ColorBox)
    (boxes : list ColorBox) : list ColorBox :=
  take maxIdx boxes ++ [box1; box2] ++ drop (S maxIdx) boxes.

(** One evaluation of the loop test and body.  [Ok None] means that the
    loop is left (test false, or [break]); [Ok (Some boxes')] is the list
    after one more iteration. *)
Definition loop_step (maxColors : Z) (boxes : list ColorBox)
  : outcome (option (list ColorBox)) :=
  if Z.of_nat (length boxes) <? maxColors then
    match select_box 0 boxes (-1) None with
    | None => Ok None
    | Some maxIdx =>
        match boxes !! maxIdx with
        | None => Throw TypeError
        | Some box =>
            let '(box1, box2) := split box in
            Ok (Some (splice2 maxIdx box1 box2 boxes))
        end
    end
  else Ok None.

(** The [while] loop, run for at most [fuel] iterations. *)
Fixpoint medianCut_loop (fuel : nat) (maxColors : Z) (boxes : list ColorBox)
  : outcome (list ColorBox) :=
  next ← loop_step maxColors boxes;
  match next with
  | None => Ok boxes
  | Some boxes' =>
      match fuel with
      | O => Throw OutOfFuel
      | S fuel' => medianCut_loop fuel' maxColors boxes'
      end
  end.

Definition medianCut_fuel (fuel : nat) (pxs : list Pixel) (maxColors : Z)
  : outcome (list Pixel) :=
  if decide (length pxs = 0%nat) then Ok []
  else
    boxes ← medianCut_loop fuel maxColors [newColorBox pxs];
    mapM_outcome average boxes.

(** Every iteration adds a box, so fewer than [maxColors] iterations run. *)
Definition medianCut (pxs : list Pixel) (maxColors : Z) : outcome (list Pixel) :=
  medianCut_fuel (Z.to_nat maxColors) pxs maxColors.

(** ** findNearestColor *)

Definition dist2 (r g b : Z) (q : Pixel) : Z :=
  let '(pr, pg, pb) := q in
  (r - pr) ^ 2 + (g - pg) ^ 2 + (b - pb) ^ 2.

(** One iteration of the loop; the state is [(minDist, nearest)], where
    [minDist = None] stands for [Infinity] and [nearest = None] for
    [undefined]. *)
Definition nearest_step (r g b : Z) (st : option Z * option Pixel) (q : Pixel)
  : option Z * option Pixel :=
  let dist := dist2 r g b q in
  match st.1 with
  | None => (Some dist, Some q)
  | Some minDist => if dist <? minDist then (Some dist, Some q) else st
  end.

Definition findNearestColor (r g b : Z) (palette : list Pixel) : option Pixel :=
  (fold_left (nearest_step r g b) palette (None, palette !! 0%nat)).2.

(** ** rgbToHex and the code format *)

(** [x.toString(16)] for an integer [x]. *)
Definition toString16 (x : Z) : string :=
  HexadecimalString.NilZero.string_of_int (Z.to_hex_int x).

(** [String(n)] for a natural number [n]. *)
Definition toString10 (n : nat) : string :=
  DecimalString.NilEmpty.string_of_uint (Nat.to_uint n).

Fixpoint string_repeat (c : ascii) (n : nat) : string :=
  match n with
  | O => EmptyString
  | S n' => String c (string_repeat c n')
  end.

(** [s.padStart(n, c)] for a one-character filler. *)
Definition padStart (n : nat) (c : ascii) (s : string) : string :=
  (string_repeat c (n - String.length s) ++ s)%string.

Definition upper_ascii (c : ascii) : ascii :=
  let n := nat_of_ascii c in
  if ((97 <=? n) && (n <=? 122))%nat then ascii_of_nat (n - 32) else c.

Fixpoint toUpperCase (s : string) : string :=
  match s with
  | EmptyString => EmptyString
  | String c s' => String (upper_ascii c) (toUpperCase s')
  end.

Definition hex2 (x : Z) : string := toUpperCase (padStart 2 "0" (toString16 x)).

Definition rgbToHex (r g b : Z) : string :=
  ("#" ++ hex2 r ++ hex2 g ++ hex2 b)%string.

(** [`C${String(idx + 1).padStart(2, '0')}`] *)
Definition code_of_index (idx : nat) : string :=
  ("C" ++ padStart 2 "0" (toString10 (idx + 1)))%string.

(** ** Map *)

(** A JS [Map] with string keys: the entries in insertion order. *)
Definition jsmap (V : Type) : Type := list (string * V).

Fixpoint jsmap_get {V : Type} (k : string) (m : jsmap V) : option V :=
  match m with
  | [] => None
  | (k', v) :: m' => if decide (k = k') then Some v else jsmap_get k m'
  end.

(** [m.set(k, v)]: an existing key keeps its position. *)
Fixpoint jsmap_set {V : Type} (k : string) (v : V) (m : jsmap V) : jsmap V :=
  match m with
  | [] => [(k, v)]
  | (k', v') :: m' =>
      if decide (k = k') then (k, v) :: m' else (k', v') :: jsmap_set k v m'
  end.

(** ** processImage

    The canvas work at the head of [processImage] (resize, composite on
    white, read back) belongs to the browser; its result, the array
    [pixels] of [targetHeight * targetWidth] triples of bytes, is the
    input here together with the two dimensions and [maxColors]. *)

Record ScanState : Type := mkScanState {
  rowData : list string;
  tally : jsmap nat;      (* the Map [colorCounts] *)
  pixelIdx : nat
}.

(** Body of the inner loop. *)
Definition scan_cell (pxs palette : list Pixel) (st : ScanState)
  : outcome ScanState :=
  match pxs !! pixelIdx st with
  | None => Throw TypeError
  | Some (r, g, b) =>
      match findNearestColor r g b palette with
      | None => Throw TypeError
      | Some (pr, pg, pb) =>
          let hex := rgbToHex pr pg pb in
          Ok {| rowData := rowData st ++ [hex];
                tally := jsmap_set hex
                           (default 0%nat (jsmap_get hex (tally st)) + 1)%nat
                           (tally st);
                pixelIdx := S (pixelIdx st) |}
      end
  end.

(** [for (col = 0; col < targetWidth; col++)], [cols] iterations to go. *)
Fixpoint scan_row (pxs palette : list Pixel) (cols : nat) (st : ScanState)
  : outcome ScanState :=
  match cols with
  | O => Ok st
  | S cols' => st' ← scan_cell pxs palette st; scan_row pxs palette cols' st'
  end.

(** [for (row = 0; row < targetHeight; row++)], [rows] iterations to go;
    the state is [(gridData, colorCounts, pixelIdx)]. *)
Fixpoint scan_rows (pxs palette : list Pixel) (targetWidth rows : nat)
    (gridData : list (list string)) (counts : jsmap nat) (idx : nat)
  : outcome (list (list string) * jsmap nat) :=
  match rows with
  | O => Ok (gridData, counts)
  | S rows' =>
      st ← scan_row pxs palette targetWidth
             {| rowData := []; tally := counts; pixelIdx := idx |};
      scan_rows pxs palette targetWidth rows'
        (gridData ++ [rowData st]) (tally st) (pixelIdx st)
  end.

Record ColorEntry : Type := mkColorEntry {
  code : string;
  hex : string;
  count : nat
}.

(** [[...colorCounts.entries()].sort((a, b) => b[1] - a[1]).map(...)] *)
Definition sortedColors (counts : jsmap nat) : list ColorEntry :=
  imap (fun idx '(h, c) => {| code := code_of_index idx; hex := h; count := c |})
       (js_sort (fun a b => Z.of_nat b.2 - Z.of_nat a.2) counts).

Record Result : Type := mkResult {
  grid : list (list (option string));   (* [None] is [undefined] *)
  colorMap : gmap string string;
  colorCounts : gmap string nat;
  numColors : nat
}.

(** The loop over [sortedColors] that fills the three tables; the state is
    [(hexToCode, codeToHex, codeCounts)]. *)
Definition tables_step
    (st : jsmap string * gmap string string * gmap string nat) (e : ColorEntry)
  : jsmap string * gmap string string * gmap string nat :=
  let '(hexToCode, codeToHex, codeCounts) := st in
  (jsmap_set (hex e) (code e) hexToCode,
   <[code e := hex e]> codeToHex,
   <[code e := count e]> codeCounts).

Definition assemble (gridData : list (list string)) (counts : jsmap nat) : Result :=
  let sorted := sortedColors counts in
  let '(hexToCode, codeToHex, codeCounts) :=
    fold_left tables_step sorted ([], ∅, ∅) in
  {| grid := map (map (fun h => jsmap_get h hexToCode)) gridData;
     colorMap := codeToHex;
     colorCounts := codeCounts;
     numColors := length sorted |}.

Definition processImage (pxs : list Pixel) (targetHeight targetWidth : nat)
    (maxColors : Z) : outcome Result :=
  palette ← medianCut pxs maxColors;
  '(gridData, counts) ← scan_rows pxs palette targetWidth targetHeight [] [] 0%nat;
  Ok (assemble gridData counts).

(** ** generateGridCSV *)

Definition newline : string := String "010" EmptyString.

(** [`c${String(i + 1).padStart(2, '0')}`] *)
Definition column_label (i : nat) : string :=
  ("c" ++ padStart 2 "0" (toString10 (i + 1)))%string.

(** [`r${String(idx + 1).padStart(2, '0')}`] *)
Definition row_label (idx : nat) : string :=
  ("r" ++ padStart 2 "0" (toString10 (idx + 1)))%string.

(** An element inside [row.join(',')]: [undefined] is written as the empty
    string. *)
Definition cell_text (cell : option string) : string :=
  default EmptyString cell.

(** The body of [grid.forEach((row, idx) => ...)]. *)
Definition csv_add_row (csv : string) (entry : nat * list (option string))
  : string :=
  (csv ++ row_label entry.1 ++ "," ++ String.concat "," (cell_text <$> entry.2)
       ++ newline)%string.

(** [currentResult] is [null] ([None]) or a result. *)
Definition generateGridCSV (currentResult : option Result) : outcome string :=
  match currentResult with
  | None => Ok EmptyString
  | Some res =>
      match grid res !! 0%nat with
      | None => Throw TypeError
      | Some row0 =>
          let cols := length row0 in
          let csv := ("row," ++ String.concat "," (column_label <$> seq 0 cols)
                             ++ newline)%string in
          Ok (fold_left csv_add_row (imap pair (grid res)) csv)
      end
  end.

(** ** estimateColorComplexity

    The canvas work (a 50 x 50 sample of the image) belongs to the
    browser; the input here is [imageData.data], four bytes (R, G, B, A)
    for each sampled pixel. *)

(** [`${n}`] for an integer [n]. *)
Definition toStringZ (n : Z) : string :=
  DecimalString.NilEmpty.string_of_int (Z.to_int n).

(** [`${r},${g},${b}`] for the channels divided by 8 and rounded down. *)
Definition color_key (px : Z * Z * Z * Z) : string :=
  let '(x0, x1, x2, _) := px in
  let r := x0 / 8 in
  let g := x1 / 8 in
  let b := x2 / 8 in
  (toStringZ r ++ "," ++ toStringZ g ++ "," ++ toStringZ b)%string.

(** The chain of [return]s on [uniqueColors]. *)
Definition suggested_colors (uniqueColors : nat) : Z :=
  if (uniqueColors <? 30)%nat then 10
  else if (uniqueColors <? 60)%nat then 15
  else if (uniqueColors <? 100)%nat then 20
  else if (uniqueColors <? 150)%nat then 25
  else 30.

Definition estimateColorComplexity (data : list (Z * Z * Z * Z)) : Z :=
  let colorSet :=
    fold_left (fun (set : gset string) px => {[ color_key px ]} ∪ set) data ∅ in
  suggested_colors (size colorSet).

(** ** Project storage

    [localStorage] and [JSON] belong to the browser.  The item stored
    under [STORAGE_KEY] is [None] (no item) or a string; [JSON.stringify]
    and [JSON.parse] are parameters ([parse] gives [None] where
    [JSON.parse] throws), and [accepts data] tells whether
    [localStorage.setItem] takes [data] or throws for lack of space.  The
    stored item is one that parses to an array of projects or does not
    parse at all, as every item written by [saveProjects] is.  The calls
    that only redraw the page are left out. *)

Section ProjectStorage.
Context {Project : Type}.
Variable project_id : Project -> string.
Variable stringify : list Project -> string.
Variable parse : string -> option (list Project).
Variable accepts : string -> bool.

Definition getProjects (store : option string) : list Project :=
  match store with
  | None => []
  | Some data =>
      if decide (data = EmptyString) then [] else default [] (parse data)
  end.

(** Returns [saved] and the item after the call. *)
Definition saveProjects (projects : list Project) (store : option string)
  : bool * option string :=
  let data := stringify projects in
  if accepts data then (true, Some data) else (false, store).

(** [while (projects.length > 20) projects.pop()], at most [fuel] rounds. *)
Fixpoint trim_projects (fuel : nat) (projects : list Project)
  : outcome (list Project) :=
  if (20 <? length projects)%nat then
    match fuel with
    | O => Throw OutOfFuel
    | S fuel' => trim_projects fuel' (removelast projects)
    end
  else Ok projects.

(** [while (!saved && projects.length > 1) { projects.pop(); saved =
    saveProjects(projects); }], at most [fuel] rounds; the state is
    [(projects, saved, store)]. *)
Fixpoint retry_save (fuel : nat) (projects : list Project) (saved : bool)
    (store : option string) : outcome (list Project * bool * option string) :=
  if negb saved && (1 <? length projects)%nat then
    match fuel with
    | O => Throw OutOfFuel
    | S fuel' =>
        let projects' := removelast projects in
        let '(saved', store') := saveProjects projects' store in
        retry_save fuel' projects' saved' store'
    end
  else Ok (projects, saved, store).

(** Returns the item after the call and whether the "storage full"
    warning is shown. *)
Definition addProject (project : Project) (store : option string)
  : outcome (option string * bool) :=
  let projects := project :: getProjects store in
  projects ← trim_projects (length projects) projects;
  let '(saved, store1) := saveProjects projects store in
  '(_, saved', store2) ← retry_save (length projects) projects saved store1;
  Ok (store2, negb saved').


(** [confirmed] is the answer to the [confirm] dialog. *)
Definition clearAllProjects (confirmed : bool) (store : option string)
  : option string :=
  if confirmed then (saveProjects [] store).2 else store.
End ProjectStorage.

(** ** Size presets *)

(** JavaScript numbers are IEEE 754 binary64 values, and so are Rocq's
    primitive floats: [/], [-], [Math.abs] and [<] are the operations of
    [PrimFloat], [<] being false as soon as one side is NaN. *)
Record Preset := mkPreset { name : string; width : float; height : float }.

Definition SIZE_PRESETS : list Preset :=
  [ mkPreset "Coaster" 50 50;
    mkPreset "Ornament" 40 50;
    mkPreset "Pillow" 120 120;
    mkPreset "Wall Art" 100 125 ].

(** One round of the [for ... of] loop on [(bestPreset, bestDiff)]. *)
Definition preset_step (imgAspectRatio : float) (best : option Preset * float)
    (preset : Preset) : option Preset * float :=
  let '(bestPreset, bestDiff) := best in
  let presetAspect := PrimFloat.div (width preset) (height preset) in
  let diff := PrimFloat.abs (PrimFloat.sub imgAspectRatio presetAspect) in
  if PrimFloat.ltb diff bestDiff then (Some preset, diff)
  else (bestPreset, bestDiff).

Definition findBestPreset (imgAspectRatio : float) : option Preset :=
  (fold_left (preset_step imgAspectRatio) SIZE_PRESETS
     (None, PrimFloat.infinity)).1.

(** ** Vocabulary of the statements *)

(** [colorCounts.set(hex, (colorCounts.get(hex) || 0) + 1)] *)
Definition bump (m : jsmap nat) (h : string) : jsmap nat :=
  jsmap_set h (default 0%nat (jsmap_get h m) + 1)%nat m.

(** The hex string a pixel is classified to. *)
Definition nearest_hex (palette : list Pixel) (p : Pixel) : option string :=
  let '(r, g, b) := p in
  match findNearestColor r g b palette with
  | Some (pr, pg, pb) => Some (rgbToHex pr pg pb)
  | None => None
  end.

(** Position of the first occurrence of [h] in [l] ([length l] if none). *)
Fixpoint first_index (h : string) (l : list string) : nat :=
  match l with
  | [] => 0
  | x :: l' => if decide (h = x) then 0 else S (first_index h l')
  end.

(** Number of occurrences of [h] in [l]. *)
Definition occurrences (h : string) (l : list string) : nat :=
  length (filter (fun x => x = h) l).

(** Reads the number back from a code. *)
Definition decode_code (c : string) : option nat :=
  match c with
  | EmptyString => None
  | String _ digits => Nat.of_uint <$> DecimalString.NilEmpty.uint_of_string digits
  end.

(** The comparator of [sortedColors]. *)
Definition by_count_desc (a b : string * nat) : Z := Z.of_nat b.2 - Z.of_nat a.2.

(** [rgbToHex] of a palette entry. *)
Definition pixel_hex (q : Pixel) : string :=
  let '(r, g, b) := q in rgbToHex r g b.

(** [k] is the mean of [vals] rounded to the nearest integer, a half
    rounding up: [k - 1/2 <= mean < k + 1/2]. *)
Definition rounded_mean (vals : list Z) (k : Z) : Prop :=
  let n := Z.of_nat (length vals) in
  let total := foldr Z.add 0 vals in
  (2 * k - 1) * n <= 2 * total < (2 * k + 1) * n.

(** The running minima and maxima of [computeBounds] are in order. *)
Definition ordered_bounds (st : Z * Z * Z * Z * Z * Z) : Prop :=
  let '(rMin, rMax, gMin, gMax, bMin, bMax) := st in
  rMin <= rMax /\ gMin <= gMax /\ bMin <= bMax.

(** Ascending in [key]; equal keys in the order of [pos]. *)
Definition key_then_pos {A : Type} (key : A -> Z) (pos : A -> nat) (a b : A)
  : Prop :=
  key a < key b \/ (key a = key b /\ (pos a < pos b)%nat).

(** The channels of a pixel read from the canvas are bytes. *)
Definition valid_pixel (p : Pixel) : Prop :=
  let '(r, g, b) := p in
  (0 <= r <= 255) /\ (0 <= g <= 255) /\ (0 <= b <= 255).

(** The 2 x 2 buffer of the worked scenario. *)
Definition scenario : list Pixel :=
  [(0, 0, 0); (255, 255, 255); (0, 0, 0); (255, 0, 0)].

(** [box.rRange], [box.gRange] or [box.bRange], by axis number. *)
Definition axis_range (axis : Axis) (box : ColorBox) : Z :=
  match axis with
  | Axis0 => rRange box
  | Axis1 => gRange box
  | Axis2 => bRange box
  end.

(** One channel of the state of [computeBounds]: [(min, max)]. *)
Definition minmax_step (st : Z * Z) (v : Z) : Z * Z :=
  (if v <? st.1 then v else st.1, if st.2 <? v then v else st.2).

(** The three ranges of [computeBounds], by axis number. *)
Definition bounds_range (axis : Axis) (ps : list Pixel) : Z :=
  let '(rr, gr, br) := computeBounds ps in
  match axis with Axis0 => rr | Axis1 => gr | Axis2 => br end.

(** [colorMap[code]] for the content of a grid cell. *)
Definition cell_color (colorMap : gmap string string) (cell : option string)
  : option string :=
  match cell with
  | Some c => colorMap !! c
  | None => None
  end.

(** Number of cells of a grid that hold the code [c]. *)
Definition cells_with (c : string) (g : list (list (option string))) : nat :=
  length (filter (fun cell => cell = Some c) (concat g)).

(** The digits [0-9] and [A-F]. *)
Definition is_upper_hex (c : ascii) : bool :=
  let n := nat_of_ascii c in
  ((48 <=? n) && (n <=? 57) || (65 <=? n) && (n <=? 70))%nat.

(** [s.split(sep)] for a one-character separator. *)
Fixpoint split_on (sep : ascii) (s : string) : list string :=
  match s with
  | EmptyString => [EmptyString]
  | String c s' =>
      if decide (c = sep) then EmptyString :: split_on sep s'
      else match split_on sep s' with
           | [] => [String c EmptyString]
           | field :: rest => String c field :: rest
           end
  end.

(** The character [sep] does not occur in [s]. *)
Fixpoint char_free (sep : ascii) (s : string) : bool :=
  match s with
  | EmptyString => true
  | String c s' => if decide (c = sep) then false else char_free sep s'
  end.

(** Reads a grid CSV back: the lines between the header and the empty
    piece after the last line break, each without its row label. *)
Definition parse_grid_csv (csv : string) : list (list string) :=
  let lines := split_on "010" csv in
  (fun line => drop 1 (split_on "," line))
    <$> drop 1 (take (length lines - 1) lines).

(** The three colour channels of a sampled pixel in steps of 8. *)
Definition quantise (px : Z * Z * Z * Z) : Z * Z * Z :=
  let '(x0, x1, x2, _) := px in (x0 / 8, x1 / 8, x2 / 8).

(** A toy instance of the storage parameters: projects are booleans,
    written as a bracket followed by one letter each. *)
(** The distance of a preset's aspect ratio to that of the image. *)
Definition preset_diff (r : float) (p : Preset) : float :=
  PrimFloat.abs (PrimFloat.sub r (PrimFloat.div (width p) (height p))).

Definition toy_stringify (l : list bool) : string :=
  String "[" (string_of_list_ascii
                ((fun b : bool => if b then "t"%char else "f"%char) <$> l)).

Definition toy_parse (data : string) : option (list bool) :=
  match data with
  | EmptyString => None
  | String _ rest =>
      Some ((fun c => bool_decide (c = "t"%char)) <$> list_ascii_of_string rest)
  end.


Definition toy_accepts (data : string) : bool := (String.length data <=? 3)%nat.

(** ** Reachable states of the loop of [medianCut] *)

Inductive reachable (pxs : list Pixel) (maxColors : Z) : list ColorBox -> Prop :=
| reach_init : reachable pxs maxColors [newColorBox pxs]
| reach_step boxes boxes' :
    reachable pxs maxColors boxes ->
    loop_step maxColors boxes = Ok (Some boxes') ->
    reachable pxs maxColors boxes'.

(** A box as the constructor builds it from at least one pixel. *)
Definition wf_box (box : ColorBox) : Prop :=
  pixels box <> [] /\ box = newColorBox (pixels box).

(** * Properties *)

Ltac fold_fmap :=
  repeat match goal with
    | |- context [list_fmap ?A ?B ?f ?l] =>
        change (list_fmap A B f l) with (f <$> l)
    end.

(** ** Sorting *)

Section JsSortFacts.
Context {A : Type} (cmp : A -> A -> Z).

Lemma js_insert_perm (x : A) (l : list A) : js_insert cmp x l ≡ₚ x :: l.
Proof.
  induction l as [|y l IH]; simpl; [done|].
  destruct (cmp x y <=? 0); [done|].
  rewrite IH. apply Permutation_swap.
Qed.

Lemma js_sort_perm (l : list A) : js_sort cmp l ≡ₚ l.
Proof.
  induction l as [|x l IH]; simpl; [done|].
  by rewrite js_insert_perm, IH.
Qed.

Lemma js_sort_length (l : list A) : length (js_sort cmp l) = length l.
Proof. apply Permutation_length, js_sort_perm. Qed.
End JsSortFacts.

(** ** Boxes *)

Lemma pixels_newColorBox (ps : list Pixel) : pixels (newColorBox ps) = ps.
Proof. unfold newColorBox. by destruct (computeBounds ps) as [[? ?] ?]. Qed.

Lemma bounds_step_ordered st p : ordered_bounds (bounds_step st p).
Proof.
  destruct st as [[[[[rMin rMax] gMin] gMax] bMin] bMax], p as [[r g] b].
  simpl. repeat case_match; lia.
Qed.

Lemma bounds_fold_ordered ps st :
  ordered_bounds st -> ordered_bounds (fold_left bounds_step ps st).
Proof.
  revert st. induction ps as [|p ps IH]; intros st Hst; simpl; [done|].
  apply IH, bounds_step_ordered.
Qed.

Lemma computeBounds_nonneg ps :
  ps <> [] ->
  let '(rr, gr, br) := computeBounds ps in 0 <= rr /\ 0 <= gr /\ 0 <= br.
Proof.
  destruct ps as [|p ps]; [done|]. intros _.
  unfold computeBounds. simpl.
  pose proof (bounds_fold_ordered ps _ (bounds_step_ordered (255, 0, 255, 0, 255, 0) p)) as H.
  destruct (fold_left bounds_step ps _) as [[[[[rMin rMax] gMin] gMax] bMin] bMax].
  simpl in H. lia.
Qed.

Lemma wf_newColorBox ps : ps <> [] -> wf_box (newColorBox ps).
Proof. intros H. split; by rewrite pixels_newColorBox. Qed.

Lemma wf_box_volume box : wf_box box -> 0 <= volume box.
Proof.
  intros [Hne ->]. unfold volume, newColorBox.
  pose proof (computeBounds_nonneg _ Hne) as H.
  destruct (computeBounds (pixels box)) as [[rr gr] br]. simpl.
  destruct H as (? & ? & ?). apply Z.mul_nonneg_nonneg; [apply Z.mul_nonneg_nonneg|]; lia.
Qed.

Lemma split_pixels box :
  let sorted := js_sort (fun a b => channel (longestAxis box) a
                                    - channel (longestAxis box) b) (pixels box) in
  pixels (split box).1 = take (length (pixels box) / 2)%nat sorted /\
  pixels (split box).2 = drop (length (pixels box) / 2)%nat sorted.
Proof.
  unfold split. simpl. rewrite !pixels_newColorBox, js_sort_length. done.
Qed.

Lemma split_lengths box :
  length (pixels (split box).1) = (length (pixels box) / 2)%nat /\
  length (pixels (split box).2)
    = (length (pixels box) - length (pixels box) / 2)%nat.
Proof.
  destruct (split_pixels box) as [-> ->].
  rewrite length_take, length_drop, js_sort_length.
  split; [|done].
  pose proof (Nat.Div0.div_le_upper_bound (length (pixels box)) 2 (length (pixels box))).
  lia.
Qed.

Lemma split_wf box :
  (1 < length (pixels box))%nat -> wf_box (split box).1 /\ wf_box (split box).2.
Proof.
  intros Hn. destruct (split_lengths box) as [H1 H2].
  assert (Hd : (1 <= length (pixels box) / 2 < length (pixels box))%nat).
  { split.
    - apply Nat.div_le_lower_bound; lia.
    - apply Nat.div_lt; lia. }
  unfold split in *. simpl in *.
  rewrite pixels_newColorBox in H1, H2.
  split; apply wf_newColorBox; intros E; rewrite E in *; simpl in *; lia.
Qed.

(** ** Selection of the box to split *)

Lemma select_box_Some boxes : forall i maxVolume maxIdx k,
  select_box i boxes maxVolume maxIdx = Some k ->
  maxIdx = Some k \/
  exists box, (i <= k)%nat /\ boxes !! (k - i)%nat = Some box /\
              (1 < length (pixels box))%nat.
Proof.
  induction boxes as [|box rest IH]; intros i mv mi k; simpl.
  - intros ->. by left.
  - destruct ((1 <? length (pixels box))%nat && (mv <? volume box)) eqn:E;
      intros H; apply IH in H as [H | (b & Hik & Hb & Hlen)].
    + inversion H; subst k. right. exists box.
      rewrite Nat.sub_diag. simpl. split; [lia|]. split; [done|].
      apply andb_true_iff in E as [E _]. by apply Nat.ltb_lt in E.
    + right. exists b. split; [lia|]. split; [|done].
      replace (k - i)%nat with (S (k - S i)) by lia. done.
    + by left.
    + right. exists b. split; [lia|]. split; [|done].
      replace (k - i)%nat with (S (k - S i)) by lia. done.
Qed.

Lemma select_box_None boxes : forall i maxVolume maxIdx,
  select_box i boxes maxVolume maxIdx = None ->
  maxIdx = None /\
  Forall (fun box => (length (pixels box) <= 1)%nat \/ volume box <= maxVolume) boxes.
Proof.
  induction boxes as [|box rest IH]; intros i mv mi; simpl.
  - intros ->. by split.
  - destruct ((1 <? length (pixels box))%nat && (mv <? volume box)) eqn:E;
      intros H; apply IH in H as [H HF]; [done|].
    split; [done|]. constructor; [|done].
    apply andb_false_iff in E as [E | E].
    + left. apply Nat.ltb_ge in E. lia.
    + right. lia.
Qed.

(** ** One iteration *)

Lemma loop_step_Some maxColors boxes boxes' :
  loop_step maxColors boxes = Ok (Some boxes') ->
  Z.of_nat (length boxes) < maxColors /\
  exists maxIdx box,
    boxes !! maxIdx = Some box /\ (1 < length (pixels box))%nat /\
    boxes' = splice2 maxIdx (split box).1 (split box).2 boxes.
Proof.
  unfold loop_step. destruct (Z.of_nat (length boxes) <? maxColors) eqn:Hlt; [|done].
  destruct (select_box 0 boxes (-1) None) as [k|] eqn:Hsel; [|done].
  apply select_box_Some in Hsel as [? | (box & _ & Hbox & Hlen)]; [done|].
  rewrite Nat.sub_0_r in Hbox. rewrite Hbox.
  destruct (split box) as [b1 b2] eqn:Hs. intros [= <-].
  split; [lia|]. exists k, box. by rewrite ?Hs.
Qed.

Lemma loop_step_total maxColors boxes :
  exists next, loop_step maxColors boxes = Ok next.
Proof.
  unfold loop_step. destruct (_ <? _); [|by eexists].
  destruct (select_box 0 boxes (-1) None) as [k|] eqn:Hsel; [|by eexists].
  apply select_box_Some in Hsel as [? | (box & _ & Hbox & Hlen)]; [done|].
  rewrite Nat.sub_0_r in Hbox. rewrite Hbox.
  destruct (split box). by eexists.
Qed.

Lemma loop_step_None maxColors boxes :
  Forall wf_box boxes ->
  loop_step maxColors boxes = Ok None <->
  maxColors <= Z.of_nat (length boxes) \/
  Forall (fun box => (length (pixels box) <= 1)%nat) boxes.
Proof.
  intros Hwf. unfold loop_step.
  destruct (Z.of_nat (length boxes) <? maxColors) eqn:Hlt.
  - destruct (select_box 0 boxes (-1) None) as [k|] eqn:Hsel.
    + pose proof Hsel as Hsel'.
      apply select_box_Some in Hsel as [? | (box & _ & Hbox & Hlen)]; [done|].
      rewrite Nat.sub_0_r in Hbox. rewrite Hbox. destruct (split box).
      split; [done|]. intros [H | H]; [lia|].
      rewrite Forall_forall in H. apply list_elem_of_lookup_2 in Hbox.
      apply H in Hbox. lia.
    + split; [|done]. intros _. right.
      apply select_box_None in Hsel as [_ HF].
      rewrite Forall_forall in *. intros box Hin.
      destruct (HF box Hin) as [? | Hv]; [done|].
      pose proof (wf_box_volume box (Hwf box Hin)). lia.
  - split; [|done]. intros _. left. lia.
Qed.

Lemma splice2_length k b1 b2 (boxes : list ColorBox) :
  (k < length boxes)%nat -> length (splice2 k b1 b2 boxes) = S (length boxes).
Proof.
  intros Hk. unfold splice2. rewrite !length_app, length_take, length_drop.
  simpl. lia.
Qed.

Lemma splice2_Forall (P : ColorBox -> Prop) k b1 b2 boxes :
  Forall P boxes -> P b1 -> P b2 -> Forall P (splice2 k b1 b2 boxes).
Proof.
  intros HF H1 H2. unfold splice2.
  apply Forall_app. split; [by apply Forall_take|].
  repeat constructor; try done. by apply Forall_drop.
Qed.

Lemma loop_step_length maxColors boxes boxes' :
  loop_step maxColors boxes = Ok (Some boxes') ->
  length boxes' = S (length boxes) /\ Z.of_nat (length boxes') <= maxColors.
Proof.
  intros H. apply loop_step_Some in H as (Hlt & k & box & Hbox & _ & ->).
  apply lookup_lt_Some in Hbox.
  rewrite splice2_length by done. lia.
Qed.

Lemma loop_step_wf maxColors boxes boxes' :
  Forall wf_box boxes ->
  loop_step maxColors boxes = Ok (Some boxes') ->
  Forall wf_box boxes'.
Proof.
  intros Hwf H. apply loop_step_Some in H as (_ & k & box & Hbox & Hlen & ->).
  destruct (split_wf box Hlen). by apply splice2_Forall.
Qed.

Lemma reachable_wf pxs maxColors boxes :
  pxs <> [] -> reachable pxs maxColors boxes -> Forall wf_box boxes.
Proof.
  intros Hne. induction 1 as [|boxes boxes' _ IH Hstep].
  - repeat constructor; by rewrite ?pixels_newColorBox.
  - by eapply loop_step_wf.
Qed.

(** ** The loop *)

Lemma medianCut_loop_inv (P : list ColorBox -> Prop) maxColors :
  (forall boxes boxes',
      P boxes -> loop_step maxColors boxes = Ok (Some boxes') -> P boxes') ->
  forall fuel boxes,
    P boxes ->
    (Z.to_nat (maxColors - Z.of_nat (length boxes)) <= fuel)%nat ->
    exists final,
      medianCut_loop fuel maxColors boxes = Ok final /\
      P final /\ loop_step maxColors final = Ok None.
Proof.
  intros HP. induction fuel as [|fuel IH]; intros boxes Hb Hfuel; simpl;
    destruct (loop_step_total maxColors boxes) as [[boxes'|] Hstep];
    rewrite Hstep; simpl; try (by exists boxes).
  - apply loop_step_length in Hstep as Hl. lia.
  - apply IH; [by eapply HP|].
    apply loop_step_length in Hstep as Hl. lia.
Qed.

Lemma medianCut_loop_fuel_mono maxColors fuel : forall fuel' boxes final,
  medianCut_loop fuel maxColors boxes = Ok final ->
  (fuel <= fuel')%nat ->
  medianCut_loop fuel' maxColors boxes = Ok final.
Proof.
  induction fuel as [|fuel IH]; intros fuel' boxes final; simpl;
    destruct (loop_step maxColors boxes) as [[boxes'|]|e] eqn:Hstep; simpl;
    try done; intros H Hle; destruct fuel'; simpl; rewrite Hstep; simpl;
    try done; try lia.
  apply IH; [done|lia].
Qed.

Lemma reachable_length pxs maxColors boxes :
  reachable pxs maxColors boxes ->
  (1 <= length boxes)%nat /\ Z.of_nat (length boxes) <= Z.max 1 maxColors.
Proof.
  induction 1 as [|boxes boxes' _ IH Hstep]; simpl; [lia|].
  apply loop_step_length in Hstep. lia.
Qed.

(** ** Averages *)

Lemma mapM_outcome_pure {A B : Type} (f : A -> outcome B) (g : A -> B) l :
  Forall (fun x => f x = Ok (g x)) l -> mapM_outcome f l = Ok (map g l).
Proof.
  induction 1 as [|x l Hx _ IH]; simpl; [done|].
  rewrite Hx. simpl. rewrite IH. done.
Qed.

Lemma average_nonempty box :
  pixels box <> [] -> average box = Ok (mean_pixel (pixels box)).
Proof.
  intros Hne. unfold average. case_decide as Hn; [|done].
  by apply length_zero_iff_nil in Hn.
Qed.

Lemma medianCut_fuel_spec pxs maxColors fuel :
  pxs <> [] ->
  (Z.to_nat (maxColors - 1) <= fuel)%nat ->
  exists boxes,
    reachable pxs maxColors boxes /\
    loop_step maxColors boxes = Ok None /\
    medianCut_fuel fuel pxs maxColors
      = Ok (map (fun box => mean_pixel (pixels box)) boxes).
Proof.
  intros Hne Hfuel. unfold medianCut_fuel.
  case_decide as Hn; [by apply length_zero_iff_nil in Hn|].
  destruct (medianCut_loop_inv (reachable pxs maxColors) maxColors
              (reach_step pxs maxColors) fuel [newColorBox pxs])
    as (final & Hloop & Hreach & Hstop); [constructor|simpl; lia|].
  exists final. rewrite Hloop. simpl. split; [done|]. split; [done|].
  apply mapM_outcome_pure.
  eapply Forall_impl; [by eapply reachable_wf|].
  intros box [Hbox _]. by apply average_nonempty.
Qed.

Lemma medianCut_spec pxs maxColors :
  pxs <> [] ->
  exists boxes,
    reachable pxs maxColors boxes /\
    loop_step maxColors boxes = Ok None /\
    medianCut pxs maxColors = Ok (map (fun box => mean_pixel (pixels box)) boxes).
Proof. intros Hne. apply medianCut_fuel_spec; [done|lia]. Qed.

Lemma medianCut_nil maxColors : medianCut [] maxColors = Ok [].
Proof. done. Qed.

(** ** Nearest colour *)

Lemma dist2_nonneg r g b q : 0 <= dist2 r g b q.
Proof. destruct q as [[pr pg] pb]. unfold dist2. nia. Qed.

Lemma dist2_self r g b : dist2 r g b (r, g, b) = 0.
Proof. unfold dist2. lia. Qed.

Lemma dist2_zero r g b q : dist2 r g b q = 0 -> q = (r, g, b).
Proof.
  destruct q as [[pr pg] pb]. unfold dist2. intros H.
  assert (r - pr = 0) by nia. assert (g - pg = 0) by nia.
  assert (b - pb = 0) by nia.
  f_equal; [f_equal|]; lia.
Qed.

(** After a non-empty scan the state holds the first entry of least
    distance. *)
Lemma nearest_fold r g b (l : list Pixel) : forall o,
  l <> [] ->
  exists l1 q l2,
    l = l1 ++ q :: l2 /\
    fold_left (nearest_step r g b) l (None, o) = (Some (dist2 r g b q), Some q) /\
    Forall (fun x => dist2 r g b q < dist2 r g b x) l1 /\
    Forall (fun x => dist2 r g b q <= dist2 r g b x) l2.
Proof.
  intros o. induction l as [|x l IH] using rev_ind; [done|]. intros _.
  rewrite fold_left_app. simpl.
  destruct (decide (l = [])) as [-> | Hne].
  - exists [], x, []. simpl. unfold nearest_step. simpl. by repeat split.
  - destruct (IH Hne) as (l1 & q & l2 & Hl & Hfold & H1 & H2).
    rewrite Hfold. unfold nearest_step. simpl.
    destruct (dist2 r g b x <? dist2 r g b q) eqn:Hlt.
    + apply Z.ltb_lt in Hlt.
      exists l, x, []. split; [done|]. split; [done|]. split; [|done].
      rewrite Hl. apply Forall_app. split.
      * eapply Forall_impl; [exact H1|]. simpl. intros. lia.
      * constructor; [lia|]. eapply Forall_impl; [exact H2|]. simpl. intros. lia.
    + apply Z.ltb_ge in Hlt.
      exists l1, q, (l2 ++ [x]). rewrite Hl.
      split; [by rewrite <- app_assoc|]. split; [done|]. split; [done|].
      apply Forall_app. split; [done|]. by repeat constructor.
Qed.

Lemma findNearestColor_first_min r g b palette :
  palette <> [] ->
  exists i q,
    palette !! i = Some q /\
    findNearestColor r g b palette = Some q /\
    (forall j q', palette !! j = Some q' -> dist2 r g b q <= dist2 r g b q') /\
    (forall j q', (j < i)%nat -> palette !! j = Some q' ->
                  dist2 r g b q < dist2 r g b q').
Proof.
  intros Hne. unfold findNearestColor.
  destruct (nearest_fold r g b palette (palette !! 0%nat) Hne)
    as (l1 & q & l2 & Hl & Hfold & H1 & H2).
  rewrite Hfold. simpl. exists (length l1), q.
  rewrite Forall_forall in H1. rewrite Forall_forall in H2.
  split; [rewrite Hl; by apply list_lookup_middle|]. split; [done|].
  split.
  - intros j q' Hj. rewrite Hl in Hj.
    apply list_elem_of_lookup_2, elem_of_app in Hj as [Hj | Hj].
    + apply H1 in Hj. lia.
    + apply elem_of_cons in Hj as [-> | Hj]; [lia|]. by apply H2.
  - intros j q' Hlt Hj. rewrite Hl, lookup_app_l in Hj by done.
    apply list_elem_of_lookup_2 in Hj. by apply H1.
Qed.

Lemma findNearestColor_elem r g b palette :
  palette <> [] ->
  exists q, findNearestColor r g b palette = Some q /\ q ∈ palette.
Proof.
  intros Hne.
  destruct (findNearestColor_first_min r g b palette Hne) as (i & q & Hi & Hq & _).
  exists q. split; [done|]. by eapply list_elem_of_lookup_2.
Qed.

Lemma findNearestColor_member r g b palette :
  (r, g, b) ∈ palette -> findNearestColor r g b palette = Some (r, g, b).
Proof.
  intros Hin.
  assert (Hne : palette <> []) by (intros ->; by apply elem_of_nil in Hin).
  destruct (findNearestColor_first_min r g b palette Hne)
    as (i & q & Hi & Hq & Hmin & _).
  apply list_elem_of_lookup_1 in Hin as [j Hj].
  pose proof (Hmin j _ Hj) as Hle.
  pose proof (dist2_self r g b) as H0.
  pose proof (dist2_nonneg r g b q).
  rewrite Hq. f_equal. apply dist2_zero. lia.
Qed.

(** ** Map *)

Section JsMap.
Context {V : Type}.
Implicit Types (m : jsmap V) (k : string) (v : V).

Lemma jsmap_get_None k m : jsmap_get k m = None <-> k ∉ m.*1.
Proof.
  induction m as [|[k' v'] m IH]; simpl.
  - split; [intros _; apply not_elem_of_nil|done].
  - rewrite not_elem_of_cons. case_decide; [|tauto].
    split; [done|]. intros [? _]. done.
Qed.

Lemma jsmap_get_Some_elem k v m : jsmap_get k m = Some v -> (k, v) ∈ m.
Proof.
  induction m as [|[k' v'] m IH]; simpl; [done|].
  case_decide as E.
  - intros [= ->]. subst. apply elem_of_cons. by left.
  - intros H. apply elem_of_cons. right. by apply IH.
Qed.

Lemma jsmap_get_elem k v m : NoDup m.*1 -> (k, v) ∈ m -> jsmap_get k m = Some v.
Proof.
  induction m as [|[k' v'] m IH]; simpl.
  - intros _ H. by apply elem_of_nil in H.
  - intros Hnd Hin. apply NoDup_cons in Hnd as [Hk' Hnd].
    apply elem_of_cons in Hin as [[= -> ->] | Hin].
    + by rewrite decide_True.
    + rewrite decide_False; [by apply IH|].
      intros ->. apply Hk'. apply list_elem_of_fmap. by exists (k', v).
Qed.

Lemma jsmap_get_set_eq k v m : jsmap_get k (jsmap_set k v m) = Some v.
Proof.
  induction m as [|[k' v'] m IH]; simpl.
  - by rewrite decide_True.
  - case_decide as E; simpl; [by rewrite decide_True|by rewrite decide_False].
Qed.

Lemma jsmap_get_set_ne k k' v m :
  k <> k' -> jsmap_get k' (jsmap_set k v m) = jsmap_get k' m.
Proof.
  intros Hne. induction m as [|[k'' v''] m IH]; simpl.
  - by rewrite decide_False.
  - case_decide as E; simpl.
    + subst k''. by rewrite !decide_False.
    + case_decide; [done|apply IH].
Qed.

Lemma jsmap_keys_set_old k v m : k ∈ m.*1 -> (jsmap_set k v m).*1 = m.*1.
Proof.
  induction m as [|[k' v'] m IH]; simpl.
  - intros H. by apply elem_of_nil in H.
  - intros H. case_decide as E; simpl; [by subst|].
    f_equal. apply IH. apply elem_of_cons in H as [? | ?]; done.
Qed.

Lemma jsmap_keys_set_new k v m : k ∉ m.*1 -> (jsmap_set k v m).*1 = m.*1 ++ [k].
Proof.
  induction m as [|[k' v'] m IH]; simpl; [done|].
  intros H. apply not_elem_of_cons in H as [Hne H].
  rewrite decide_False by done. simpl. f_equal. by apply IH.
Qed.

Lemma jsmap_keys_set_elem k k' v m :
  k' ∈ (jsmap_set k v m).*1 <-> k' = k \/ k' ∈ m.*1.
Proof.
  destruct (decide (k ∈ m.*1)) as [Hin | Hout].
  - rewrite jsmap_keys_set_old by done. split; [tauto|]. by intros [-> | ?].
  - rewrite jsmap_keys_set_new by done.
    rewrite elem_of_app, list_elem_of_singleton. tauto.
Qed.

Lemma jsmap_set_NoDup k v m : NoDup m.*1 -> NoDup (jsmap_set k v m).*1.
Proof.
  intros Hnd. destruct (decide (k ∈ m.*1)) as [Hin | Hout].
  - by rewrite jsmap_keys_set_old.
  - rewrite jsmap_keys_set_new by done.
    apply NoDup_app. split; [done|]. split; [|apply NoDup_singleton].
    intros x Hx Hx'. apply list_elem_of_singleton in Hx'. by subst.
Qed.
End JsMap.

Lemma jsmap_set_sum k (v : nat) (m : jsmap nat) :
  (sum_list (jsmap_set k v m).*2 + default 0 (jsmap_get k m)
   = sum_list m.*2 + v)%nat.
Proof.
  induction m as [|[k' v'] m IH]; simpl; [lia|].
  case_decide as E; simpl; fold_fmap; lia.
Qed.

(** ** The tally of a scan *)

Lemma StronglySorted_weaken {A : Type} (R R' : A -> A -> Prop) (l : list A) :
  (forall a b, a ∈ l -> b ∈ l -> R a b -> R' a b) ->
  StronglySorted R l -> StronglySorted R' l.
Proof.
  induction l as [|x l IH]; intros HR Hs; [constructor|].
  apply StronglySorted_inv in Hs as [Hs Hx].
  constructor.
  - apply IH; [|done]. intros a b Ha Hb. apply HR; by apply elem_of_cons; right.
  - rewrite Forall_forall in Hx. apply Forall_forall. intros b Hb.
    apply HR; [apply elem_of_cons; by left|apply elem_of_cons; by right|by apply Hx].
Qed.

Lemma first_index_elem_lt h l : h ∈ l -> (first_index h l < length l)%nat.
Proof.
  induction l as [|x l IH]; simpl.
  - intros H. by apply elem_of_nil in H.
  - intros H. case_decide; [lia|].
    apply elem_of_cons in H as [? | H]; [done|]. apply IH in H. lia.
Qed.

Lemma first_index_app_elem h l l' :
  h ∈ l -> first_index h (l ++ l') = first_index h l.
Proof.
  induction l as [|x l IH]; simpl.
  - intros H. by apply elem_of_nil in H.
  - intros H. case_decide; [done|].
    apply elem_of_cons in H as [? | H]; [done|]. by rewrite IH.
Qed.

Lemma first_index_app_new h l : h ∉ l -> first_index h (l ++ [h]) = length l.
Proof.
  induction l as [|x l IH]; simpl.
  - intros _. by rewrite decide_True.
  - intros H. apply not_elem_of_cons in H as [Hne H].
    rewrite decide_False by done. by rewrite IH.
Qed.

Lemma occurrences_snoc h x l :
  occurrences h (l ++ [x])
  = (occurrences h l + if decide (x = h) then 1 else 0)%nat.
Proof.
  unfold occurrences. rewrite filter_app, length_app. f_equal.
  rewrite filter_cons, filter_nil. by case_decide.
Qed.

Lemma occurrences_zero h l : h ∉ l -> occurrences h l = 0%nat.
Proof.
  unfold occurrences. induction l as [|x l IH]; [done|].
  intros H. apply not_elem_of_cons in H as [Hne H].
  rewrite filter_cons. rewrite decide_False by done. by apply IH.
Qed.

(** What the Map [colorCounts] holds after the values [hexes] were
    tallied in this order, starting from the empty Map. *)
Lemma tally_spec (hexes : list string) :
  let counts := fold_left bump hexes [] in
  NoDup counts.*1 /\
  (forall h, h ∈ counts.*1 <-> h ∈ hexes) /\
  (forall h, h ∈ hexes -> jsmap_get h counts = Some (occurrences h hexes)) /\
  StronglySorted (fun a b => (first_index a hexes < first_index b hexes)%nat)
    counts.*1 /\
  sum_list counts.*2 = length hexes.
Proof.
  induction hexes as [|x l IH] using rev_ind; simpl.
  - split; [constructor|]. split; [done|]. split.
    + intros h H. by apply elem_of_nil in H.
    + split; [constructor|done].
  - rewrite fold_left_app. simpl. simpl in IH.
    set (m := fold_left bump l []) in *.
    destruct IH as (Hnd & Hkeys & Hget & Hsort & Hsum).
    unfold bump at 1 2 3 4 5.
    split; [by apply jsmap_set_NoDup|].
    split; [|split; [|split]].
    + intros h. rewrite jsmap_keys_set_elem, elem_of_app, list_elem_of_singleton, Hkeys.
      tauto.
    + intros h Hh. rewrite occurrences_snoc.
      destruct (decide (x = h)) as [-> | Hne].
      * rewrite jsmap_get_set_eq. f_equal.
        destruct (decide (h ∈ l)) as [Hin | Hout].
        -- rewrite Hget by done. done.
        -- rewrite occurrences_zero by done.
           assert (jsmap_get h m = None) as ->; [|done].
           apply jsmap_get_None. by rewrite Hkeys.
      * rewrite jsmap_get_set_ne by done. rewrite Nat.add_0_r.
        apply Hget. apply elem_of_app in Hh as [? | Hh]; [done|].
        apply list_elem_of_singleton in Hh. by subst.
    + assert (Hmono : StronglySorted
                (fun a b => (first_index a (l ++ [x]) < first_index b (l ++ [x]))%nat)
                m.*1).
      { eapply StronglySorted_weaken; [|exact Hsort].
        intros a c Ha Hc Hac. apply Hkeys in Ha, Hc.
        by rewrite !first_index_app_elem. }
      destruct (decide (x ∈ m.*1)) as [Hin | Hout].
      * by rewrite jsmap_keys_set_old.
      * rewrite jsmap_keys_set_new by done.
        apply StronglySorted_app_2; [|done|repeat constructor].
        intros a c Ha Hc. apply list_elem_of_singleton in Hc as ->.
        rewrite first_index_app_new by (by rewrite <- Hkeys).
        rewrite first_index_app_elem by (by apply Hkeys).
        apply first_index_elem_lt. by apply Hkeys.
    + pose proof (jsmap_set_sum x (default 0%nat (jsmap_get x m) + 1)%nat m).
      rewrite length_app. simpl. lia.
Qed.

(** ** The classification scan *)

Section Scan.
Variables (pxs palette : list Pixel) (hexes : list string).
Hypothesis Hclass :
  Forall2 (fun p h => nearest_hex palette p = Some h) pxs hexes.

Lemma scan_cell_spec st :
  (pixelIdx st < length pxs)%nat ->
  exists h,
    hexes !! pixelIdx st = Some h /\
    scan_cell pxs palette st
    = Ok {| rowData := rowData st ++ [h];
            tally := bump (tally st) h;
            pixelIdx := S (pixelIdx st) |}.
Proof.
  intros Hlt. apply lookup_lt_is_Some_2 in Hlt as [p Hp].
  destruct (Forall2_lookup_l _ _ _ _ _ Hclass Hp) as (h & Hh & Hph).
  exists h. split; [done|].
  unfold scan_cell. rewrite Hp. destruct p as [[r g] b].
  unfold nearest_hex in Hph.
  destruct (findNearestColor r g b palette) as [[[pr pg] pb]|]; [|done].
  by injection Hph as <-.
Qed.

Lemma scan_row_spec cols : forall st,
  (pixelIdx st + cols <= length pxs)%nat ->
  let row := take cols (drop (pixelIdx st) hexes) in
  scan_row pxs palette cols st
  = Ok {| rowData := rowData st ++ row;
          tally := fold_left bump row (tally st);
          pixelIdx := pixelIdx st + cols |}.
Proof.
  induction cols as [|cols IH]; intros st Hle; simpl.
  - rewrite app_nil_r, Nat.add_0_r. by destruct st.
  - destruct (scan_cell_spec st) as (h & Hh & ->); [lia|]. simpl.
    rewrite IH by (simpl; lia). simpl.
    rewrite (drop_S _ _ _ Hh). simpl.
    rewrite <- app_assoc, Nat.add_succ_r. done.
Qed.

Lemma scan_rows_spec targetWidth rows : forall gridData counts idx,
  (idx + rows * targetWidth <= length pxs)%nat ->
  exists rowsData,
    scan_rows pxs palette targetWidth rows gridData counts idx
    = Ok (gridData ++ rowsData, fold_left bump (concat rowsData) counts) /\
    concat rowsData = take (rows * targetWidth) (drop idx hexes) /\
    length rowsData = rows /\
    Forall (fun row => length row = targetWidth) rowsData.
Proof.
  pose proof (Forall2_length _ _ _ Hclass) as Hlen.
  induction rows as [|rows IH]; intros gridData counts idx Hle; simpl.
  - exists []. by rewrite app_nil_r.
  - rewrite scan_row_spec by (simpl; lia). simpl.
    destruct (IH (gridData ++ [take targetWidth (drop idx hexes)])
                (fold_left bump (take targetWidth (drop idx hexes)) counts)
                (idx + targetWidth)%nat) as (rest & -> & Hcat & Hn & Hw); [lia|].
    exists (take targetWidth (drop idx hexes) :: rest).
    split; [|split; [|split]].
    + simpl. by rewrite <- app_assoc, fold_left_app.
    + simpl. rewrite Hcat, <- drop_drop. apply take_take_drop.
    + simpl. by rewrite Hn.
    + constructor; [|done]. rewrite length_take, length_drop. lia.
Qed.
End Scan.

Lemma nearest_hex_total palette p :
  palette <> [] -> exists h, nearest_hex palette p = Some h.
Proof.
  intros Hne. destruct p as [[r g] b]. unfold nearest_hex.
  destruct (findNearestColor_elem r g b palette Hne) as ([[pr pg] pb] & -> & _).
  by eexists.
Qed.

Lemma classification_exists palette (pxs : list Pixel) :
  pxs = [] \/ palette <> [] ->
  exists hexes, Forall2 (fun p h => nearest_hex palette p = Some h) pxs hexes.
Proof.
  intros H. induction pxs as [|p pxs IH].
  - exists []. constructor.
  - destruct H as [? | Hne]; [done|].
    destruct IH as [hexes Hh]; [by right|].
    destruct (nearest_hex_total palette p Hne) as [h Hp].
    exists (h :: hexes). by constructor.
Qed.

(** The scan of a buffer of [targetHeight * targetWidth] pixels. *)
Lemma scan_spec pxs palette targetHeight targetWidth hexes :
  Forall2 (fun p h => nearest_hex palette p = Some h) pxs hexes ->
  length pxs = (targetHeight * targetWidth)%nat ->
  exists gridData,
    scan_rows pxs palette targetWidth targetHeight [] [] 0%nat
    = Ok (gridData, fold_left bump hexes []) /\
    concat gridData = hexes /\
    length gridData = targetHeight /\
    Forall (fun row => length row = targetWidth) gridData.
Proof.
  intros Hclass Hlen.
  destruct (scan_rows_spec pxs palette hexes Hclass targetWidth targetHeight
              [] [] 0%nat) as (G & Hscan & Hcat & Hn & Hw); [lia|].
  rewrite drop_0, take_ge in Hcat
    by (rewrite <- (Forall2_length _ _ _ Hclass); lia).
  exists G. rewrite Hscan, Hcat. done.
Qed.

(** ** Stability of the sort *)

Section JsSortStable.
Context {A : Type} (cmp : A -> A -> Z) (key : A -> Z) (pos : A -> nat).
Hypothesis Hcmp : forall a b, cmp a b = key a - key b.

Lemma js_insert_sorted x l :
  StronglySorted (key_then_pos key pos) l ->
  Forall (fun y => (pos x < pos y)%nat) l ->
  StronglySorted (key_then_pos key pos) (js_insert cmp x l).
Proof.
  induction l as [|y l IH]; intros Hs Hx; simpl; [repeat constructor|].
  apply StronglySorted_inv in Hs as [Hs Hy].
  apply Forall_cons in Hx as [Hxy Hx].
  rewrite Hcmp. destruct (key x - key y <=? 0) eqn:E.
  - apply Z.leb_le in E. constructor; [by constructor|].
    constructor; [unfold key_then_pos; lia|].
    rewrite Forall_forall in Hy, Hx. apply Forall_forall. intros z Hz.
    specialize (Hy z Hz). specialize (Hx z Hz). unfold key_then_pos in *. lia.
  - apply Z.leb_gt in E. constructor; [by apply IH|].
    apply Forall_forall. intros z Hz.
    rewrite js_insert_perm in Hz. apply elem_of_cons in Hz as [-> | Hz].
    + unfold key_then_pos. lia.
    + rewrite Forall_forall in Hy. by apply Hy.
Qed.

Lemma js_sort_sorted l :
  StronglySorted (fun a b => (pos a < pos b)%nat) l ->
  StronglySorted (key_then_pos key pos) (js_sort cmp l).
Proof.
  induction l as [|x l IH]; intros Hs; simpl; [constructor|].
  apply StronglySorted_inv in Hs as [Hs Hx].
  apply js_insert_sorted; [by apply IH|].
  rewrite Forall_forall in Hx. apply Forall_forall. intros y Hy.
  apply Hx. by rewrite js_sort_perm in Hy.
Qed.
End JsSortStable.

Lemma StronglySorted_lookup {A : Type} (R : A -> A -> Prop) (l : list A) i j a b :
  StronglySorted R l -> (i < j)%nat ->
  l !! i = Some a -> l !! j = Some b -> R a b.
Proof.
  intros Hs. revert i j. induction Hs as [|x l Hs IH Hx]; intros i j Hij Hi Hj.
  - by rewrite lookup_nil in Hi.
  - destruct j as [|j]; [lia|]. simpl in Hj. destruct i as [|i]; simpl in Hi.
    + injection Hi as <-. rewrite Forall_forall in Hx.
      by eapply Hx, list_elem_of_lookup_2.
    + eapply IH; [|done..]. lia.
Qed.

Lemma StronglySorted_fmap_inv {A B : Type} (f : A -> B) (R : B -> B -> Prop)
    (l : list A) :
  StronglySorted R (f <$> l) -> StronglySorted (fun a b => R (f a) (f b)) l.
Proof.
  induction l as [|x l IH]; intros Hs; [constructor|].
  rewrite fmap_cons in Hs. apply StronglySorted_inv in Hs as [Hs Hx].
  constructor; [by apply IH|].
  rewrite Forall_forall in Hx. apply Forall_forall. intros b Hb.
  apply Hx, list_elem_of_fmap. by exists b.
Qed.

(** ** Codes *)

Lemma append_nil_l (s : string) : String.append EmptyString s = s.
Proof. reflexivity. Qed.

Lemma append_cons (c : ascii) (s1 s2 : string) :
  String.append (String c s1) s2 = String c (String.append s1 s2).
Proof. reflexivity. Qed.

Lemma uint_of_string_zeros k s :
  DecimalString.NilEmpty.uint_of_string (string_repeat "0" k ++ s)
  = Nat.iter k Decimal.D0 <$> DecimalString.NilEmpty.uint_of_string s.
Proof.
  induction k as [|k IH]; simpl.
  - rewrite append_nil_l. by destruct (DecimalString.NilEmpty.uint_of_string s).
  - rewrite IH.
    by destruct (DecimalString.NilEmpty.uint_of_string s).
Qed.

Lemma of_uint_zeros k d : Nat.of_uint (Nat.iter k Decimal.D0 d) = Nat.of_uint d.
Proof. induction k as [|k IH]; simpl; [done|]. exact IH. Qed.

Lemma decode_code_of_index idx : decode_code (code_of_index idx) = Some (idx + 1)%nat.
Proof.
  unfold code_of_index, decode_code, padStart, toString10.
  rewrite append_cons, append_nil_l.
  rewrite uint_of_string_zeros, DecimalString.NilEmpty.usu. simpl.
  by rewrite of_uint_zeros, DecimalNat.Unsigned.of_to.
Qed.

#[export] Instance code_of_index_inj : Inj (=) (=) code_of_index.
Proof.
  intros i j H. apply (f_equal decode_code) in H.
  rewrite !decode_code_of_index in H. injection H. lia.
Qed.

(** ** sortedColors *)

Lemma sortedColors_fields counts :
  hex <$> sortedColors counts = (js_sort by_count_desc counts).*1 /\
  count <$> sortedColors counts = (js_sort by_count_desc counts).*2 /\
  code <$> sortedColors counts = code_of_index <$> seq 0 (length counts).
Proof.
  unfold sortedColors. fold by_count_desc. rewrite !fmap_imap.
  rewrite <- (js_sort_length by_count_desc counts).
  rewrite <- imap_seq_0, <- !imap_const.
  repeat split; apply imap_ext; by intros i [h c] _.
Qed.

Lemma sortedColors_length counts : length (sortedColors counts) = length counts.
Proof. unfold sortedColors. by rewrite length_imap, js_sort_length. Qed.

Lemma sortedColors_codes_NoDup counts : NoDup (code <$> sortedColors counts).
Proof.
  destruct (sortedColors_fields counts) as (_ & _ & ->).
  apply NoDup_fmap_2; [apply _|apply NoDup_seq].
Qed.

Lemma sortedColors_lookup counts i e :
  sortedColors counts !! i = Some e <->
  code e = code_of_index i /\
  js_sort by_count_desc counts !! i = Some (hex e, count e).
Proof.
  unfold sortedColors. fold by_count_desc. rewrite list_lookup_imap.
  destruct (js_sort by_count_desc counts !! i) as [[h c]|]; simpl.
  - split.
    + by intros [= <-].
    + intros [Hc [= -> ->]]. destruct e. simpl in *. by subst.
  - split; [done|]. by intros [_ ?].
Qed.

(** ** The three tables *)

Lemma tables_fold l : forall a b c,
  fold_left tables_step l (a, b, c)
  = (fold_left (fun m e => jsmap_set (hex e) (code e) m) l a,
     fold_left (fun m e => <[code e := hex e]> m) l b,
     fold_left (fun m e => <[code e := count e]> m) l c).
Proof. induction l as [|e l IH]; intros a b c; simpl; [done|]. by rewrite IH. Qed.

Lemma fold_insert_list_to_map {E V : Type} (kf : E -> string) (vf : E -> V) l :
  fold_left (fun m e => <[kf e := vf e]> m) l (∅ : gmap string V)
  = list_to_map (reverse ((fun e => (kf e, vf e)) <$> l)).
Proof.
  induction l as [|e l IH] using rev_ind; [done|].
  rewrite fold_left_app, fmap_app, reverse_app. simpl. by rewrite IH.
Qed.

Lemma hexToCode_get l h : forall m0,
  h ∈ hex <$> l ->
  exists e, e ∈ l /\ hex e = h /\
            jsmap_get h (fold_left (fun m e => jsmap_set (hex e) (code e) m) l m0)
            = Some (code e).
Proof.
  induction l as [|e l IH] using rev_ind; intros m0 Hh.
  - by apply elem_of_nil in Hh.
  - rewrite fold_left_app. simpl.
    destruct (decide (hex e = h)) as [<- | Hne].
    + exists e. rewrite jsmap_get_set_eq. split; [|done].
      apply elem_of_app. right. by apply list_elem_of_singleton.
    + rewrite fmap_app, elem_of_app in Hh. destruct Hh as [Hh | Hh].
      * destruct (IH m0 Hh) as (e' & He' & Hhe' & Hget).
        exists e'. rewrite jsmap_get_set_ne by done.
        split; [apply elem_of_app; by left|done].
      * simpl in Hh. apply list_elem_of_singleton in Hh. done.
Qed.

(** ** The assembled result *)

Lemma assemble_spec gridData counts :
  let sorted := sortedColors counts in
  let r := assemble gridData counts in
  numColors r = length counts /\
  colorMap r = list_to_map (reverse ((fun e => (code e, hex e)) <$> sorted)) /\
  colorCounts r = list_to_map (reverse ((fun e => (code e, count e)) <$> sorted)) /\
  grid r = map (map (fun h =>
             jsmap_get h (fold_left (fun m e => jsmap_set (hex e) (code e) m)
                            sorted []))) gridData.
Proof.
  simpl. unfold assemble. rewrite tables_fold.
  by rewrite !fold_insert_list_to_map, sortedColors_length.
Qed.

Lemma pairs_keys {E V : Type} (kf : E -> string) (vf : E -> V) (l : list E) :
  (reverse ((fun e => (kf e, vf e)) <$> l)).*1 = reverse (kf <$> l) /\
  (reverse ((fun e => (kf e, vf e)) <$> l)).*2 = reverse (vf <$> l).
Proof. by rewrite !fmap_reverse, <- !list_fmap_compose. Qed.

Lemma assemble_code_dom gridData counts e :
  e ∈ sortedColors counts ->
  code e ∈ dom (colorMap (assemble gridData counts)) /\
  code e ∈ dom (colorCounts (assemble gridData counts)).
Proof.
  intros He.
  destruct (assemble_spec gridData counts) as (_ & -> & -> & _).
  rewrite !dom_list_to_map_L, !elem_of_list_to_set.
  rewrite (proj1 (pairs_keys code hex _)), (proj1 (pairs_keys code count _)).
  rewrite elem_of_reverse. split; apply list_elem_of_fmap; by exists e.
Qed.

Lemma assemble_colorMap_lookup gridData counts e :
  e ∈ sortedColors counts ->
  colorMap (assemble gridData counts) !! code e = Some (hex e) /\
  colorCounts (assemble gridData counts) !! code e = Some (count e).
Proof.
  intros He.
  destruct (assemble_spec gridData counts) as (_ & -> & -> & _).
  pose proof (sortedColors_codes_NoDup counts) as Hnd.
  split; apply elem_of_list_to_map_1.
  - rewrite (proj1 (pairs_keys code hex _)). by rewrite reverse_Permutation.
  - apply elem_of_reverse, list_elem_of_fmap. by exists e.
  - rewrite (proj1 (pairs_keys code count _)). by rewrite reverse_Permutation.
  - apply elem_of_reverse, list_elem_of_fmap. by exists e.
Qed.

Lemma assemble_counts_sum gridData counts :
  sum_list (map_to_list (colorCounts (assemble gridData counts))).*2
  = sum_list counts.*2.
Proof.
  destruct (assemble_spec gridData counts) as (_ & _ & -> & _).
  pose proof (sortedColors_codes_NoDup counts) as Hnd.
  rewrite map_to_list_to_map
    by (rewrite (proj1 (pairs_keys code count _)); by rewrite reverse_Permutation).
  rewrite (proj2 (pairs_keys code count _)), sum_list_with_reverse.
  destruct (sortedColors_fields counts) as (_ & -> & _).
  by rewrite js_sort_perm.
Qed.

Lemma assemble_grid_cell gridData counts row cell :
  (forall h, h ∈ concat gridData -> h ∈ counts.*1) ->
  row ∈ grid (assemble gridData counts) -> cell ∈ row ->
  exists e h, e ∈ sortedColors counts /\ hex e = h /\ h ∈ concat gridData /\
              cell = Some (code e).
Proof.
  intros Hkeys Hrow Hcell.
  destruct (assemble_spec gridData counts) as (_ & _ & _ & Hg).
  rewrite Hg in Hrow.
  apply list_elem_of_fmap in Hrow as (hs & -> & Hhs).
  apply list_elem_of_fmap in Hcell as (h & -> & Hh).
  assert (Hin : h ∈ concat gridData).
  { apply list_elem_of_In, in_concat. exists hs.
    split; by apply list_elem_of_In. }
  destruct (hexToCode_get (sortedColors counts) h []) as (e & He & Hhe & Hget).
  { destruct (sortedColors_fields counts) as (-> & _).
    rewrite js_sort_perm. by apply Hkeys. }
  exists e, h. by rewrite Hget.
Qed.

(** ** The pipeline on a buffer of the right length *)

Lemma medianCut_total pxs maxColors :
  exists palette,
    medianCut pxs maxColors = Ok palette /\
    (pxs = [] \/ palette <> []) /\
    (pxs <> [] -> Z.of_nat (length palette) <= Z.max 1 maxColors).
Proof.
  destruct (decide (pxs = [])) as [-> | Hne].
  - exists []. split; [done|]. split; [by left|done].
  - destruct (medianCut_spec pxs maxColors Hne) as (boxes & Hreach & _ & ->).
    apply reachable_length in Hreach as [H1 H2].
    eexists. split; [done|]. rewrite length_map. split; [|done].
    right. destruct boxes; [simpl in H1; lia|done].
Qed.

Lemma processImage_spec pxs targetHeight targetWidth maxColors :
  length pxs = (targetHeight * targetWidth)%nat ->
  exists palette hexes gridData,
    medianCut pxs maxColors = Ok palette /\
    Forall2 (fun p h => nearest_hex palette p = Some h) pxs hexes /\
    concat gridData = hexes /\
    length gridData = targetHeight /\
    Forall (fun row => length row = targetWidth) gridData /\
    processImage pxs targetHeight targetWidth maxColors
    = Ok (assemble gridData (fold_left bump hexes [])).
Proof.
  intros Hlen.
  destruct (medianCut_total pxs maxColors) as (palette & Hmc & Hne & _).
  destruct (classification_exists palette pxs Hne) as [hexes Hclass].
  destruct (scan_spec pxs palette targetHeight targetWidth hexes Hclass Hlen)
    as (G & Hscan & Hcat & Hn & Hw).
  exists palette, hexes, G. repeat (split; [done|]).
  unfold processImage. rewrite Hmc. simpl. rewrite Hscan. done.
Qed.

(** ** Classified values come from the palette *)

Lemma nearest_hex_elem palette p h :
  nearest_hex palette p = Some h -> exists q, q ∈ palette /\ h = pixel_hex q.
Proof.
  destruct p as [[r g] b]. unfold nearest_hex. intros H.
  destruct (decide (palette = [])) as [-> | Hne]; [done|].
  destruct (findNearestColor_elem r g b palette Hne) as (q & Hq & Hin).
  rewrite Hq in H. destruct q as [[pr pg] pb]. injection H as <-.
  by exists (pr, pg, pb).
Qed.

(** ** Means *)

Lemma round_div_spec s n :
  0 < n -> (2 * round_div s n - 1) * n <= 2 * s < (2 * round_div s n + 1) * n.
Proof.
  intros Hn. unfold round_div.
  pose proof (Z.div_mod (2 * s + n) (2 * n)) as Hdm.
  pose proof (Z.mod_pos_bound (2 * s + n) (2 * n)) as Hb.
  nia.
Qed.

Lemma round_div_exact c n : 0 < n -> round_div (n * c) n = c.
Proof.
  intros Hn. unfold round_div. symmetry.
  apply (Z.div_unique_pos _ _ c n); lia.
Qed.

Lemma sum_channel_foldr axis ps :
  sum_channel axis ps = foldr Z.add 0 (channel axis <$> ps).
Proof.
  unfold sum_channel.
  assert (H : forall acc, fold_left (fun a p => a + channel axis p) ps acc
                          = acc + foldr Z.add 0 (channel axis <$> ps)).
  { induction ps as [|p ps IH]; intros acc; simpl; [lia|]. rewrite IH. fold_fmap. lia. }
  by rewrite H.
Qed.

Lemma sum_channel_uniform axis p ps :
  Forall (fun x => x = p) ps ->
  sum_channel axis ps = Z.of_nat (length ps) * channel axis p.
Proof.
  intros H. rewrite sum_channel_foldr.
  induction H as [|x ps -> _ IH]; [simpl; lia|].
  rewrite fmap_cons, length_cons. simpl foldr. rewrite IH. lia.
Qed.

Lemma mean_pixel_uniform p ps :
  ps <> [] -> Forall (fun x => x = p) ps -> mean_pixel ps = p.
Proof.
  intros Hne H. unfold mean_pixel.
  rewrite !(sum_channel_uniform _ p ps H).
  assert (0 < Z.of_nat (length ps)) by (destruct ps; [done|simpl; lia]).
  rewrite !round_div_exact by done. by destruct p as [[r g] b].
Qed.

(** ** A scan that sees one value only *)

Lemma fold_bump_same h n : forall k,
  fold_left bump (replicate n h) [(h, k)] = [(h, (k + n)%nat)].
Proof.
  induction n as [|n IH]; intros k; simpl.
  - by rewrite Nat.add_0_r.
  - unfold bump at 2. simpl. rewrite !decide_True by done. simpl.
    rewrite IH. do 2 f_equal. lia.
Qed.

Lemma tally_single h hexes :
  hexes <> [] -> Forall (fun x => x = h) hexes ->
  fold_left bump hexes [] = [(h, length hexes)].
Proof.
  intros Hne H.
  assert (Hr : hexes = replicate (length hexes) h).
  { clear Hne. induction H as [|x l -> _ IH]; [done|]. simpl. by rewrite <- IH. }
  rewrite Hr at 1. destruct (length hexes) as [|n] eqn:Hn.
  - by apply length_zero_iff_nil in Hn.
  - simpl. unfold bump at 2. simpl. by rewrite fold_bump_same.
Qed.

Lemma assemble_single gridData h n :
  numColors (assemble gridData [(h, n)]) = 1%nat /\
  colorMap (assemble gridData [(h, n)]) = {[ "C01" := h ]} /\
  colorCounts (assemble gridData [(h, n)]) = {[ "C01" := n ]}.
Proof. unfold assemble. simpl. by rewrite !insert_empty. Qed.

(** ** Uniform input *)

Lemma reachable_pixels_subset pxs maxColors boxes (P : Pixel -> Prop) :
  Forall P pxs -> reachable pxs maxColors boxes ->
  Forall (fun box => Forall P (pixels box)) boxes.
Proof.
  intros HP. induction 1 as [|boxes boxes' _ IH Hstep].
  - repeat constructor. by rewrite pixels_newColorBox.
  - apply loop_step_Some in Hstep as (_ & k & box & Hbox & _ & ->).
    apply list_elem_of_lookup_2 in Hbox.
    pose proof (proj1 (Forall_forall _ _) IH box Hbox) as Hb.
    destruct (split_pixels box) as [H1 H2].
    apply splice2_Forall; [done|..].
    + rewrite H1. apply Forall_take. by rewrite js_sort_perm.
    + rewrite H2. apply Forall_drop. by rewrite js_sort_perm.
Qed.

Lemma medianCut_fuel_mono pxs maxColors fuel fuel' palette :
  medianCut_fuel fuel pxs maxColors = Ok palette ->
  (fuel <= fuel')%nat ->
  medianCut_fuel fuel' pxs maxColors = Ok palette.
Proof.
  unfold medianCut_fuel. case_decide; [done|].
  destruct (medianCut_loop fuel maxColors [newColorBox pxs]) as [boxes|] eqn:Hloop;
    simpl; [|done].
  intros Hmap Hle.
  by rewrite (medianCut_loop_fuel_mono _ _ _ _ _ Hloop Hle).
Qed.

Lemma medianCut_le_one pxs maxColors :
  pxs <> [] -> maxColors <= 1 -> medianCut pxs maxColors = Ok [mean_pixel pxs].
Proof.
  intros Hne Hle. unfold medianCut, medianCut_fuel.
  case_decide as Hn; [by apply length_zero_iff_nil in Hn|].
  assert (Hstep : loop_step maxColors [newColorBox pxs] = Ok None).
  { unfold loop_step. simpl length.
    destruct (Z.ltb_spec (Z.of_nat 1) maxColors); [lia|done]. }
  destruct (Z.to_nat maxColors); simpl; rewrite Hstep; simpl;
    rewrite average_nonempty, pixels_newColorBox by (by rewrite pixels_newColorBox);
    done.
Qed.

Lemma one_value_result pxs rows cols maxColors palette q :
  pxs <> [] -> length pxs = (rows * cols)%nat ->
  medianCut pxs maxColors = Ok palette ->
  Forall (fun x => x = q) palette ->
  exists gridData,
    processImage pxs rows cols maxColors
    = Ok (assemble gridData [(pixel_hex q, length pxs)]) /\
    Forall (Forall (fun h => h = pixel_hex q)) gridData.
Proof.
  intros Hne Hlen Hmc Hq.
  destruct (processImage_spec pxs rows cols maxColors Hlen)
    as (palette' & hexes & G & Hmc' & Hclass & Hcat & _ & _ & Hrun).
  rewrite Hmc in Hmc'. injection Hmc' as <-.
  assert (Hall : Forall (fun h => h = pixel_hex q) hexes).
  { apply Forall_forall. intros h Hh.
    apply list_elem_of_lookup_1 in Hh as [i Hi].
    destruct (Forall2_lookup_r _ _ _ _ _ Hclass Hi) as (p & _ & Hp).
    apply nearest_hex_elem in Hp as (q' & Hq' & ->).
    rewrite Forall_forall in Hq. by rewrite (Hq q' Hq'). }
  pose proof (Forall2_length _ _ _ Hclass) as Hl.
  assert (hexes <> []) by (intros ->; destruct pxs; done).
  exists G. rewrite Hrun, (tally_single (pixel_hex q)), <- Hl by done.
  split; [done|].
  apply Forall_forall. intros row Hrow. apply Forall_forall. intros h Hh.
  rewrite Forall_forall in Hall. apply Hall. rewrite <- Hcat.
  apply list_elem_of_In, in_concat. exists row. split; by apply list_elem_of_In.
Qed.

Lemma assemble_single_grid gridData h n :
  Forall (Forall (fun x => x = h)) gridData ->
  Forall (Forall (fun cell => cell = Some "C01")) (grid (assemble gridData [(h, n)])).
Proof.
  intros HG. unfold assemble. simpl.
  induction HG as [|row G Hrow _ IH]; simpl; constructor; [|done].
  induction Hrow as [|x xs -> _ IHr]; simpl; constructor; [|done].
  by rewrite decide_True.
Qed.

(** ** Hex strings of bytes *)

Lemma hex2_table_NoDup : NoDup (hex2 <$> seqZ 0 256).
Proof. apply (bool_decide_unpack _). by vm_compute. Qed.

Lemma hex2_table_length :
  Forall (fun h => String.length h = 2%nat) (hex2 <$> seqZ 0 256).
Proof. apply (bool_decide_unpack _). by vm_compute. Qed.

Lemma hex2_table_lookup x :
  0 <= x <= 255 -> (hex2 <$> seqZ 0 256) !! Z.to_nat x = Some (hex2 x).
Proof.
  intros Hx. rewrite list_lookup_fmap, lookup_seqZ_lt by lia.
  simpl. f_equal. f_equal. lia.
Qed.

Lemma hex2_inj x y : 0 <= x <= 255 -> 0 <= y <= 255 -> hex2 x = hex2 y -> x = y.
Proof.
  intros Hx Hy Heq.
  pose proof (hex2_table_lookup x Hx) as Hlx.
  pose proof (hex2_table_lookup y Hy) as Hly. rewrite <- Heq in Hly.
  pose proof (NoDup_lookup _ _ _ _ hex2_table_NoDup Hlx Hly). lia.
Qed.

Lemma hex2_length x : 0 <= x <= 255 -> String.length (hex2 x) = 2%nat.
Proof.
  intros Hx. pose proof hex2_table_length as H. rewrite Forall_forall in H.
  apply H. eapply list_elem_of_lookup_2. by apply hex2_table_lookup.
Qed.

Lemma string_app_inj (a : string) : forall a' b b',
  String.length a = String.length a' ->
  String.append a b = String.append a' b' -> a = a' /\ b = b'.
Proof.
  induction a as [|c a IH]; intros [|c' a'] b b' Hlen; try done.
  rewrite !append_cons. intros [= -> H].
  destruct (IH a' b b') as [-> ->]; [by injection Hlen|done|done].
Qed.

Lemma pixel_hex_inj q1 q2 :
  valid_pixel q1 -> valid_pixel q2 -> pixel_hex q1 = pixel_hex q2 -> q1 = q2.
Proof.
  destruct q1 as [[r1 g1] b1], q2 as [[r2 g2] b2].
  intros (Hr1 & Hg1 & Hb1) (Hr2 & Hg2 & Hb2). unfold pixel_hex, rgbToHex.
  rewrite !append_cons, !append_nil_l. intros [= H].
  apply string_app_inj in H as [Hr H]; [|by rewrite !hex2_length].
  apply string_app_inj in H as [Hg Hb]; [|by rewrite !hex2_length].
  apply hex2_inj in Hr, Hg, Hb; try done. by subst.
Qed.

Lemma sum_channel_bounds axis ps :
  Forall valid_pixel ps ->
  0 <= sum_channel axis ps <= 255 * Z.of_nat (length ps).
Proof.
  intros H. rewrite sum_channel_foldr.
  induction H as [|[[r g] b] ps (Hr & Hg & Hb) _ IH]; [simpl; lia|].
  rewrite fmap_cons, length_cons. simpl foldr.
  destruct axis; simpl; lia.
Qed.

Lemma round_div_byte s n : 0 < n -> 0 <= s <= 255 * n -> 0 <= round_div s n <= 255.
Proof. intros Hn Hs. pose proof (round_div_spec s n Hn). nia. Qed.

Lemma mean_pixel_valid ps :
  ps <> [] -> Forall valid_pixel ps -> valid_pixel (mean_pixel ps).
Proof.
  intros Hne H.
  assert (0 < Z.of_nat (length ps)) by (destruct ps; [done|simpl; lia]).
  unfold mean_pixel, valid_pixel.
  repeat split; apply round_div_byte; try done; by apply sum_channel_bounds.
Qed.

Lemma medianCut_valid pxs maxColors palette :
  Forall valid_pixel pxs ->
  medianCut pxs maxColors = Ok palette ->
  Forall valid_pixel palette.
Proof.
  intros Hv Hmc. destruct (decide (pxs = [])) as [-> | Hne].
  - injection Hmc as <-. constructor.
  - destruct (medianCut_spec pxs maxColors Hne) as (boxes & Hreach & _ & Hpal).
    rewrite Hpal in Hmc. injection Hmc as <-.
    pose proof (reachable_wf _ _ _ Hne Hreach) as Hwf.
    pose proof (reachable_pixels_subset _ _ _ _ Hv Hreach) as Hsub.
    apply Forall_fmap. rewrite Forall_forall in Hwf, Hsub.
    apply Forall_forall. intros box Hbox. simpl.
    apply mean_pixel_valid; [apply (Hwf box Hbox)|by apply Hsub].
Qed.

(** * The claims *)

(** ** C1: the worked scenario *)

(** C1 (as stated, refuted): on the 2 x 2 scenario with [maxColors = 2]
    the palette is not [[(0,0,0), (255,128,0)]]: the second box holds
    [(255,255,255)] and [(255,0,0)], whose blue mean is 127.5, rounded to
    128. *)
Lemma scenario_palette_not_orange :
  medianCut scenario 2 = Ok [(0, 0, 0); (255, 128, 128)] /\
  medianCut scenario 2 <> Ok [(0, 0, 0); (255, 128, 0)].
Proof. split; [by vm_compute|]. vm_compute. discriminate. Qed.

(** C1 (amended): on the 2 x 2 scenario with [maxColors = 2] the first
    split is on axis 0 (R), the palette is [[(0,0,0), (255,128,128)]],
    pixels 0 and 2 are classified to [(0,0,0)] and pixels 1 and 3 to
    [(255,128,128)], the tallies are 2 and 2 with black seen first, so
    black gets the first code; the grid is [[C01, C02], [C01, C02]] and
    [numColors = 2]. *)
Theorem scenario_pipeline :
  longestAxis (newColorBox scenario) = Axis0 /\
  medianCut scenario 2 = Ok [(0, 0, 0); (255, 128, 128)] /\
  map (fun '(r, g, b) => findNearestColor r g b [(0, 0, 0); (255, 128, 128)])
      scenario
  = [Some (0, 0, 0); Some (255, 128, 128); Some (0, 0, 0); Some (255, 128, 128)] /\
  exists r,
    processImage scenario 2 2 2 = Ok r /\
    grid r = [[Some "C01"; Some "C02"]; [Some "C01"; Some "C02"]] /\
    colorMap r = {[ "C01" := "#000000"; "C02" := "#FF8080" ]} /\
    colorCounts r = {[ "C01" := 2%nat; "C02" := 2%nat ]} /\
    numColors r = 2%nat.
Proof.
  split; [by vm_compute|]. split; [by vm_compute|]. split; [by vm_compute|].
  eexists. split; [by vm_compute|]. by vm_compute.
Qed.

(** ** C2: [maxColors < 1] *)

(** C2 (as stated, refuted): with [maxColors = 0] a one-pixel buffer is
    not rejected; the call returns the same result as with
    [maxColors = 1]. *)
Lemma nonpositive_maxColors_not_rejected :
  0 < 1 /\
  processImage [(10, 20, 30)] 1 1 0 = processImage [(10, 20, 30)] 1 1 1 /\
  exists r,
    processImage [(10, 20, 30)] 1 1 0 = Ok r /\
    grid r = [[Some "C01"]] /\
    colorMap r = {[ "C01" := "#0A141E" ]} /\
    numColors r = 1%nat.
Proof.
  split; [lia|]. split; [by vm_compute|].
  eexists. split; [by vm_compute|]. by vm_compute.
Qed.

(** C2 (amended): for every buffer of [rows * cols] pixels and every
    [maxColors < 1] the call is not rejected: the loop of the Partitioner
    does not run and the pipeline returns what it returns for
    [maxColors = 1]. *)
Theorem nonpositive_maxColors_as_one pxs rows cols maxColors :
  maxColors < 1 ->
  length pxs = (rows * cols)%nat ->
  exists r,
    processImage pxs rows cols maxColors = Ok r /\
    processImage pxs rows cols 1 = Ok r.
Proof.
  intros Hmc Hlen.
  destruct (processImage_spec pxs rows cols maxColors Hlen)
    as (palette & hexes & G & _ & _ & _ & _ & _ & Hrun).
  eexists. split; [exact Hrun|]. rewrite <- Hrun.
  unfold processImage.
  destruct (decide (pxs = [])) as [-> | Hne]; [done|].
  by rewrite !medianCut_le_one by (done || lia).
Qed.

Lemma nonpositive_maxColors_as_one_witness :
  -3 < 1 /\
  exists r,
    processImage scenario 2 2 (-3) = Ok r /\ processImage scenario 2 2 1 = Ok r.
Proof.
  split; [lia|].
  apply (nonpositive_maxColors_as_one scenario 2 2 (-3)); [lia|reflexivity].
Defined.

(** ** C3: tallies and grid codes *)

(** C3: for every buffer of [rows * cols] pixels and every
    [maxColors >= 1] the pipeline returns a result in which the values of
    [colorCounts] add up to [rows * cols] and every cell of [grid] holds a
    code that is a key of both [colorMap] and [colorCounts]. *)
Theorem counts_sum_and_grid_codes pxs rows cols maxColors :
  length pxs = (rows * cols)%nat ->
  1 <= maxColors ->
  exists r,
    processImage pxs rows cols maxColors = Ok r /\
    sum_list (map_to_list (colorCounts r)).*2 = (rows * cols)%nat /\
    forall row cell, row ∈ grid r -> cell ∈ row ->
      exists c, cell = Some c /\ c ∈ dom (colorMap r) /\ c ∈ dom (colorCounts r).
Proof.
  intros Hlen _.
  destruct (processImage_spec pxs rows cols maxColors Hlen)
    as (palette & hexes & G & _ & Hclass & Hcat & _ & _ & Hrun).
  destruct (tally_spec hexes) as (_ & Hkeys & _ & _ & Hsum).
  eexists. split; [exact Hrun|]. split.
  - rewrite assemble_counts_sum, Hsum, <- Hlen.
    symmetry. by eapply Forall2_length.
  - intros row cell Hrow Hcell.
    destruct (assemble_grid_cell G (fold_left bump hexes []) row cell)
      as (e & h & He & _ & _ & ->); [|exact Hrow|exact Hcell|].
    + intros h Hh. apply Hkeys. by rewrite <- Hcat.
    + exists (code e). split; [done|]. by apply assemble_code_dom.
Qed.

Lemma counts_sum_and_grid_codes_witness :
  length scenario = (2 * 2)%nat /\ 1 <= 3 /\
  exists r,
    processImage scenario 2 2 3 = Ok r /\
    sum_list (map_to_list (colorCounts r)).*2 = (2 * 2)%nat /\
    forall row cell, row ∈ grid r -> cell ∈ row ->
      exists c, cell = Some c /\ c ∈ dom (colorMap r) /\ c ∈ dom (colorCounts r).
Proof.
  split; [reflexivity|]. split; [lia|].
  apply (counts_sum_and_grid_codes scenario 2 2 3); [reflexivity|lia].
Defined.

(** ** C4: never more colours than requested *)

(** C4: for every non-empty buffer of [rows * cols] pixels and every
    [maxColors >= 1] the pipeline returns a result whose [numColors] is at
    most [maxColors]. *)
Theorem numColors_le_maxColors pxs rows cols maxColors :
  pxs <> [] ->
  length pxs = (rows * cols)%nat ->
  1 <= maxColors ->
  exists r,
    processImage pxs rows cols maxColors = Ok r /\
    Z.of_nat (numColors r) <= maxColors.
Proof.
  intros Hne Hlen Hmc.
  destruct (processImage_spec pxs rows cols maxColors Hlen)
    as (palette & hexes & G & Hpal & Hclass & _ & _ & _ & Hrun).
  destruct (medianCut_total pxs maxColors) as (palette' & Hpal' & _ & Hbound).
  rewrite Hpal in Hpal'. injection Hpal' as <-. specialize (Hbound Hne).
  destruct (tally_spec hexes) as (Hnd & Hkeys & _).
  eexists. split; [exact Hrun|].
  destruct (assemble_spec G (fold_left bump hexes [])) as (-> & _).
  assert (Hsub : (fold_left bump hexes []).*1 ⊆+ pixel_hex <$> palette).
  { apply NoDup_submseteq; [done|]. intros h Hh. apply Hkeys in Hh.
    apply list_elem_of_lookup_1 in Hh as [i Hi].
    destruct (Forall2_lookup_r _ _ _ _ _ Hclass Hi) as (p & _ & Hp).
    apply nearest_hex_elem in Hp as (q & Hq & ->).
    apply list_elem_of_fmap. by exists q. }
  apply submseteq_length in Hsub. rewrite !length_fmap in Hsub. lia.
Qed.

Lemma numColors_le_maxColors_witness :
  scenario <> [] /\ length scenario = (2 * 2)%nat /\ 1 <= 3 /\
  exists r, processImage scenario 2 2 3 = Ok r /\ Z.of_nat (numColors r) <= 3.
Proof.
  split; [discriminate|]. split; [reflexivity|]. split; [lia|].
  apply (numColors_le_maxColors scenario 2 2 3); [discriminate|reflexivity|lia].
Defined.

(** ** C5: one colour requested *)

(** C5: for every non-empty buffer of [rows * cols] pixels, the pipeline
    with [maxColors = 1] returns exactly one code, and the colour mapped
    to it is, channel by channel, the mean of all input pixels rounded to
    the nearest integer with a half rounding up. *)
Theorem one_color_is_rounded_mean pxs rows cols :
  pxs <> [] ->
  length pxs = (rows * cols)%nat ->
  exists r R G B,
    processImage pxs rows cols 1 = Ok r /\
    numColors r = 1%nat /\
    colorMap r = {[ "C01" := rgbToHex R G B ]} /\
    colorCounts r = {[ "C01" := length pxs ]} /\
    Forall (Forall (fun cell => cell = Some "C01")) (grid r) /\
    rounded_mean (channel Axis0 <$> pxs) R /\
    rounded_mean (channel Axis1 <$> pxs) G /\
    rounded_mean (channel Axis2 <$> pxs) B.
Proof.
  intros Hne Hlen.
  pose proof (medianCut_le_one pxs 1 Hne ltac:(lia)) as Hpal.
  destruct (one_value_result pxs rows cols 1 _ (mean_pixel pxs) Hne Hlen Hpal)
    as (gridData & Hrun & HG); [by repeat constructor|].
  destruct (assemble_single gridData (pixel_hex (mean_pixel pxs)) (length pxs))
    as (Hn & Hmap & Hcnt).
  assert (Hpos : 0 < Z.of_nat (length pxs)) by (destruct pxs; [done|simpl; lia]).
  eexists _, _, _, _. split; [exact Hrun|]. split; [exact Hn|].
  split; [exact Hmap|]. split; [exact Hcnt|].
  split; [by apply assemble_single_grid|].
  unfold rounded_mean. rewrite !length_fmap, <- !sum_channel_foldr.
  repeat split; by apply round_div_spec.
Qed.

Lemma one_color_is_rounded_mean_witness :
  scenario <> [] /\ length scenario = (2 * 2)%nat /\
  exists r R G B,
    processImage scenario 2 2 1 = Ok r /\
    numColors r = 1%nat /\
    colorMap r = {[ "C01" := rgbToHex R G B ]} /\
    colorCounts r = {[ "C01" := length scenario ]} /\
    Forall (Forall (fun cell => cell = Some "C01")) (grid r) /\
    rounded_mean (channel Axis0 <$> scenario) R /\
    rounded_mean (channel Axis1 <$> scenario) G /\
    rounded_mean (channel Axis2 <$> scenario) B.
Proof.
  split; [discriminate|]. split; [reflexivity|].
  apply (one_color_is_rounded_mean scenario 2 2); [discriminate|reflexivity].
Defined.

(** ** C6: uniform input *)

(** C6: for every non-empty buffer of [rows * cols] pixels that all have
    the same RGB value [p], and every [maxColors > 1], every box of the
    Partitioner averages to [p] and the pipeline returns [numColors = 1],
    the one code being mapped to [p]. *)
Theorem uniform_image_one_color pxs p rows cols maxColors :
  pxs <> [] ->
  length pxs = (rows * cols)%nat ->
  Forall (fun x => x = p) pxs ->
  1 < maxColors ->
  exists palette r,
    medianCut pxs maxColors = Ok palette /\
    Forall (fun q => q = p) palette /\
    processImage pxs rows cols maxColors = Ok r /\
    numColors r = 1%nat /\
    colorMap r = {[ "C01" := pixel_hex p ]}.
Proof.
  intros Hne Hlen Hall _.
  destruct (medianCut_spec pxs maxColors Hne) as (boxes & Hreach & _ & Hpal).
  pose proof (reachable_wf _ _ _ Hne Hreach) as Hwf.
  pose proof (reachable_pixels_subset _ _ _ _ Hall Hreach) as Hsub.
  assert (Hq : Forall (fun q => q = p)
                 (map (fun box => mean_pixel (pixels box)) boxes)).
  { apply Forall_fmap. rewrite Forall_forall in Hwf, Hsub.
    apply Forall_forall. intros box Hbox. simpl.
    apply mean_pixel_uniform; [apply (Hwf box Hbox)|by apply Hsub]. }
  destruct (one_value_result pxs rows cols maxColors _ p Hne Hlen Hpal Hq)
    as (gridData & Hrun & _).
  destruct (assemble_single gridData (pixel_hex p) (length pxs)) as (Hn & Hmap & _).
  eexists _, _. split; [exact Hpal|]. split; [exact Hq|].
  split; [exact Hrun|]. by split.
Qed.

Lemma uniform_image_one_color_witness :
  [(7, 8, 9); (7, 8, 9); (7, 8, 9)] <> [] /\
  length [(7, 8, 9); (7, 8, 9); (7, 8, 9)] = (1 * 3)%nat /\
  Forall (fun x => x = (7, 8, 9)) [(7, 8, 9); (7, 8, 9); (7, 8, 9)] /\
  1 < 3 /\
  exists palette r,
    medianCut [(7, 8, 9); (7, 8, 9); (7, 8, 9)] 3 = Ok palette /\
    Forall (fun q => q = (7, 8, 9)) palette /\
    processImage [(7, 8, 9); (7, 8, 9); (7, 8, 9)] 1 3 3 = Ok r /\
    numColors r = 1%nat /\
    colorMap r = {[ "C01" := pixel_hex (7, 8, 9) ]}.
Proof.
  split; [discriminate|]. split; [reflexivity|].
  split; [repeat constructor|]. split; [lia|].
  apply (uniform_image_one_color [(7, 8, 9); (7, 8, 9); (7, 8, 9)] (7, 8, 9) 1 3 3);
    [discriminate|reflexivity|repeat constructor|lia].
Defined.

(** ** C7: classification of palette entries, first match *)

(** C7: for every non-empty palette, classifying an entry of the palette
    against the palette returns that RGB value; and for every pixel the
    entry returned is at least distance, and no entry at the same distance
    stands before it in the palette. *)
Theorem findNearestColor_first_match (palette : list Pixel) :
  palette <> [] ->
  (forall r g b, (r, g, b) ∈ palette ->
     findNearestColor r g b palette = Some (r, g, b)) /\
  (forall r g b, exists i q,
     palette !! i = Some q /\
     findNearestColor r g b palette = Some q /\
     forall j q', palette !! j = Some q' ->
       dist2 r g b q <= dist2 r g b q' /\
       (dist2 r g b q' = dist2 r g b q -> (i <= j)%nat)).
Proof.
  intros Hne. split.
  - intros r g b. apply findNearestColor_member.
  - intros r g b.
    destruct (findNearestColor_first_min r g b palette Hne)
      as (i & q & Hi & Hq & Hmin & Hfirst).
    exists i, q. split; [done|]. split; [done|].
    intros j q' Hj. split; [by eapply Hmin|].
    intros Heq. destruct (decide (i <= j)%nat) as [|Hlt]; [done|].
    specialize (Hfirst j q' ltac:(lia) Hj). lia.
Qed.

Lemma findNearestColor_first_match_witness :
  [(5, 5, 5); (0, 0, 0); (5, 5, 5); (10, 10, 10)] <> [] /\
  findNearestColor 5 5 5 [(5, 5, 5); (0, 0, 0); (5, 5, 5); (10, 10, 10)]
  = Some (5, 5, 5).
Proof.
  split; [discriminate|].
  apply (proj1 (findNearestColor_first_match
                  [(5, 5, 5); (0, 0, 0); (5, 5, 5); (10, 10, 10)]
                  ltac:(discriminate))).
  apply elem_of_cons. by left.
Defined.

(** ** C8: order of the codes *)

(** C8: for every buffer of [rows * cols] pixels the scan succeeds and
    its grid has [rows] rows of [cols] values, which read in row-major
    order are, pixel by pixel, the hex strings of the palette entries
    nearest to the input pixels; every scanned value is the hex string
    of a palette entry, and on byte channels two palette entries have the
    same hex string only if they are the same RGB value; the entries of [sortedColors] are the distinct
    classified values, each with its number of occurrences in the
    row-major scan, in order of descending count, equal counts in order
    of first appearance in the scan; the entry at position [i] gets the
    code of index [i], and the returned tables map that code to the
    entry's colour and count. *)
Theorem codes_by_count_then_first_seen pxs rows cols maxColors :
  length pxs = (rows * cols)%nat ->
  exists palette gridData counts,
    medianCut pxs maxColors = Ok palette /\
    scan_rows pxs palette cols rows [] [] 0%nat = Ok (gridData, counts) /\
    processImage pxs rows cols maxColors = Ok (assemble gridData counts) /\
    let scan := concat gridData in
    let sorted := sortedColors counts in
    Forall2 (fun p h => nearest_hex palette p = Some h) pxs scan /\
    length gridData = rows /\
    Forall (fun row => length row = cols) gridData /\
    (forall h, h ∈ scan -> exists q, q ∈ palette /\ h = pixel_hex q) /\
    (Forall valid_pixel pxs ->
     forall q1 q2, q1 ∈ palette -> q2 ∈ palette ->
                   pixel_hex q1 = pixel_hex q2 -> q1 = q2) /\
    NoDup (hex <$> sorted) /\
    (forall h, h ∈ hex <$> sorted <-> h ∈ scan) /\
    (forall i e, sorted !! i = Some e ->
       code e = code_of_index i /\
       count e = occurrences (hex e) scan /\
       colorMap (assemble gridData counts) !! code e = Some (hex e) /\
       colorCounts (assemble gridData counts) !! code e = Some (count e)) /\
    (forall i j e1 e2, (i < j)%nat ->
       sorted !! i = Some e1 -> sorted !! j = Some e2 ->
       (count e2 < count e1)%nat \/
       (count e1 = count e2 /\
        (first_index (hex e1) scan < first_index (hex e2) scan)%nat)).
Proof.
  intros Hlen.
  destruct (medianCut_total pxs maxColors) as (palette & Hmc & Hne & _).
  destruct (classification_exists palette pxs Hne) as [hexes Hclass].
  destruct (scan_spec pxs palette rows cols hexes Hclass Hlen)
    as (G & Hscan & Hcat & Hrows & Hcols).
  exists palette, G, (fold_left bump hexes []).
  split; [done|]. split; [done|].
  split; [unfold processImage; rewrite Hmc; simpl; by rewrite Hscan|].
  simpl. rewrite Hcat.
  split; [done|]. split; [done|]. split; [done|].
  destruct (tally_spec hexes) as (Hnd & Hkeys & Hget & Hsort & _).
  set (counts := fold_left bump hexes []) in *.
  destruct (sortedColors_fields counts) as (Hhex & _ & _).
  pose proof (js_sort_perm by_count_desc counts) as Hperm.
  split.
  { intros h Hh. apply list_elem_of_lookup_1 in Hh as [i Hi].
    destruct (Forall2_lookup_r _ _ _ _ _ Hclass Hi) as (p & _ & Hp).
    by apply nearest_hex_elem in Hp. }
  split.
  { intros Hv q1 q2 H1 H2.
    pose proof (medianCut_valid _ _ _ Hv Hmc) as Hpv.
    rewrite Forall_forall in Hpv. apply pixel_hex_inj; by apply Hpv. }
  split; [by rewrite Hhex, Hperm|].
  split; [intros h; by rewrite Hhex, Hperm|].
  split.
  - intros i e He. pose proof He as He'.
    apply sortedColors_lookup in He as [Hcode Hi].
    apply list_elem_of_lookup_2 in Hi. rewrite Hperm in Hi.
    apply list_elem_of_lookup_2 in He'.
    split; [done|]. split; [|by apply assemble_colorMap_lookup].
    assert (Hin : hex e ∈ hexes).
    { apply Hkeys, list_elem_of_fmap. by exists (hex e, count e). }
    apply (jsmap_get_elem _ _ _ Hnd) in Hi. rewrite Hget in Hi by done.
    by injection Hi.
  - intros i j e1 e2 Hij H1 H2.
    apply sortedColors_lookup in H1 as [_ H1].
    apply sortedColors_lookup in H2 as [_ H2].
    assert (Hs : StronglySorted
                   (key_then_pos (fun a : string * nat => - Z.of_nat a.2)
                                 (fun a => first_index a.1 hexes))
                   (js_sort by_count_desc counts)).
    { apply js_sort_sorted; [intros a b; unfold by_count_desc; lia|].
      by apply StronglySorted_fmap_inv in Hsort. }
    pose proof (StronglySorted_lookup _ _ _ _ _ _ Hs Hij H1 H2) as HR.
    unfold key_then_pos in HR. simpl in HR. lia.
Qed.

Lemma codes_by_count_then_first_seen_witness :
  length scenario = (2 * 2)%nat /\
  exists palette gridData counts,
    medianCut scenario 2 = Ok palette /\
    scan_rows scenario palette 2 2 [] [] 0%nat = Ok (gridData, counts) /\
    processImage scenario 2 2 2 = Ok (assemble gridData counts) /\
    let scan := concat gridData in
    let sorted := sortedColors counts in
    Forall2 (fun p h => nearest_hex palette p = Some h) scenario scan /\
    length gridData = 2%nat /\
    Forall (fun row => length row = 2%nat) gridData /\
    (forall h, h ∈ scan -> exists q, q ∈ palette /\ h = pixel_hex q) /\
    (Forall valid_pixel scenario ->
     forall q1 q2, q1 ∈ palette -> q2 ∈ palette ->
                   pixel_hex q1 = pixel_hex q2 -> q1 = q2) /\
    NoDup (hex <$> sorted) /\
    (forall h, h ∈ hex <$> sorted <-> h ∈ scan) /\
    (forall i e, sorted !! i = Some e ->
       code e = code_of_index i /\
       count e = occurrences (hex e) scan /\
       colorMap (assemble gridData counts) !! code e = Some (hex e) /\
       colorCounts (assemble gridData counts) !! code e = Some (count e)) /\
    (forall i j e1 e2, (i < j)%nat ->
       sorted !! i = Some e1 -> sorted !! j = Some e2 ->
       (count e2 < count e1)%nat \/
       (count e1 = count e2 /\
        (first_index (hex e1) scan < first_index (hex e2) scan)%nat)).
Proof.
  split; [reflexivity|].
  apply (codes_by_count_then_first_seen scenario 2 2 2). reflexivity.
Defined.

(** ** C9: termination of the Partitioner *)

(** C9: for every buffer and every [maxColors], an iteration of the loop
    of [medianCut] adds exactly one box and keeps the count at most
    [maxColors]; from a reachable state the loop is left exactly when the
    count has reached [maxColors] or no box has more than one pixel; the
    iteration relation is well founded; and [medianCut] returns a palette,
    the same for every bound on the number of iterations from
    [maxColors - 1] on. *)
Theorem medianCut_terminates pxs maxColors :
  (forall boxes boxes',
     loop_step maxColors boxes = Ok (Some boxes') ->
     length boxes' = S (length boxes) /\ Z.of_nat (length boxes') <= maxColors) /\
  (forall boxes,
     pxs <> [] -> reachable pxs maxColors boxes ->
     (exists next, loop_step maxColors boxes = Ok next) /\
     (loop_step maxColors boxes = Ok None <->
      maxColors <= Z.of_nat (length boxes) \/
      Forall (fun box => (length (pixels box) <= 1)%nat) boxes)) /\
  well_founded (fun boxes' boxes => loop_step maxColors boxes = Ok (Some boxes')) /\
  exists palette,
    medianCut pxs maxColors = Ok palette /\
    forall fuel, (Z.to_nat (maxColors - 1) <= fuel)%nat ->
                 medianCut_fuel fuel pxs maxColors = Ok palette.
Proof.
  split; [apply loop_step_length|]. split; [|split].
  - intros boxes Hne Hreach. split; [apply loop_step_total|].
    apply loop_step_None. by eapply reachable_wf.
  - apply (well_founded_lt_compat _
             (fun boxes => Z.to_nat (maxColors - Z.of_nat (length boxes)))).
    intros boxes' boxes Hstep. apply loop_step_length in Hstep. lia.
  - destruct (decide (pxs = [])) as [-> | Hne]; [by exists []|].
    destruct (medianCut_fuel_spec pxs maxColors (Z.to_nat (maxColors - 1)) Hne)
      as (boxes & _ & _ & Hpal); [lia|].
    eexists. split.
    + eapply medianCut_fuel_mono; [exact Hpal|lia].
    + intros fuel Hfuel. by eapply medianCut_fuel_mono.
Qed.

Lemma medianCut_terminates_witness :
  loop_step 2 [newColorBox scenario]
  = Ok (Some [newColorBox [(0, 0, 0); (0, 0, 0)];
              newColorBox [(255, 255, 255); (255, 0, 0)]]) /\
  length [newColorBox [(0, 0, 0); (0, 0, 0)];
          newColorBox [(255, 255, 255); (255, 0, 0)]]
  = S (length [newColorBox scenario]) /\
  Z.of_nat (length [newColorBox [(0, 0, 0); (0, 0, 0)];
                    newColorBox [(255, 255, 255); (255, 0, 0)]]) <= 2.
Proof.
  split; [reflexivity|].
  apply (proj1 (medianCut_terminates scenario 2)). reflexivity.
Defined.

(** ** C10: no empty box, no division by zero *)

(** C10: splitting a box of [n >= 2] pixels gives a first box of
    [floor(n/2) >= 1] pixels and a second of [n - floor(n/2) >= 1]; an
    iteration of the loop of [medianCut] only splits a box with more than
    one pixel; hence every box of every reachable list has a pixel and
    [average] divides by a non-zero count there, and [medianCut] never
    ends in a division by zero. *)
Theorem reachable_boxes_nonempty pxs maxColors :
  (forall box,
     (2 <= length (pixels box))%nat ->
     length (pixels (split box).1) = (length (pixels box) / 2)%nat /\
     length (pixels (split box).2)
       = (length (pixels box) - length (pixels box) / 2)%nat /\
     (1 <= length (pixels (split box).1))%nat /\
     (1 <= length (pixels (split box).2))%nat) /\
  (forall boxes boxes',
     loop_step maxColors boxes = Ok (Some boxes') ->
     exists maxIdx box,
       boxes !! maxIdx = Some box /\ (1 < length (pixels box))%nat /\
       boxes' = splice2 maxIdx (split box).1 (split box).2 boxes) /\
  (pxs <> [] ->
   forall boxes, reachable pxs maxColors boxes ->
     Forall (fun box => pixels box <> [] /\ exists c, average box = Ok c) boxes) /\
  medianCut pxs maxColors <> Throw DivisionByZero.
Proof.
  split; [|split; [|split]].
  - intros box Hn. destruct (split_lengths box) as [H1 H2].
    rewrite H1, H2. split; [done|]. split; [done|].
    assert (1 <= length (pixels box) / 2)%nat
      by (apply Nat.div_le_lower_bound; lia).
    assert (length (pixels box) / 2 < length (pixels box))%nat
      by (apply Nat.div_lt; lia).
    lia.
  - intros boxes boxes' Hstep. by apply loop_step_Some in Hstep as [_ ?].
  - intros Hne boxes Hreach.
    eapply Forall_impl; [by eapply reachable_wf|].
    intros box [Hbox _]. split; [done|].
    exists (mean_pixel (pixels box)). by apply average_nonempty.
  - destruct (medianCut_total pxs maxColors) as (palette & -> & _). done.
Qed.

Lemma reachable_boxes_nonempty_witness :
  (2 <= length (pixels (newColorBox scenario)))%nat /\
  length (pixels (split (newColorBox scenario)).1)
  = (length (pixels (newColorBox scenario)) / 2)%nat /\
  length (pixels (split (newColorBox scenario)).2)
  = (length (pixels (newColorBox scenario))
     - length (pixels (newColorBox scenario)) / 2)%nat /\
  (1 <= length (pixels (split (newColorBox scenario)).1))%nat /\
  (1 <= length (pixels (split (newColorBox scenario)).2))%nat.
Proof.
  split; [vm_compute; lia|].
  apply (proj1 (reachable_boxes_nonempty scenario 2)). vm_compute. lia.
Defined.

(** * Further properties of the quantiser *)

(** ** Bounds of a box *)

Lemma minmax_fold_spec (vs : list Z) : forall mn mx,
  let st := fold_left minmax_step vs (mn, mx) in
  st.1 <= mn /\ mx <= st.2 /\
  Forall (fun v => st.1 <= v <= st.2) vs /\
  (st.1 = mn \/ st.1 ∈ vs) /\ (st.2 = mx \/ st.2 ∈ vs).
Proof.
  induction vs as [|v vs IH]; intros mn mx; simpl.
  - repeat split; (lia || constructor || by left).
  - unfold minmax_step at 2 4 6 8 10. simpl.
    specialize (IH (if v <? mn then v else mn) (if mx <? v then v else mx)).
    simpl in IH. destruct IH as (H1 & H2 & H3 & H4 & H5).
    set (st := fold_left minmax_step vs _) in *.
    destruct (Z.ltb_spec v mn), (Z.ltb_spec mx v);
      (split; [lia|]; split; [lia|]; split; [constructor; [lia|done]|]; split;
       [destruct H4 as [-> | ?]; [(by left) || (right; apply elem_of_cons; by left)
                                 | right; apply elem_of_cons; by right]
       |destruct H5 as [-> | ?]; [(by left) || (right; apply elem_of_cons; by left)
                                 | right; apply elem_of_cons; by right]]).
Qed.

Lemma bounds_fold_channels ps : forall st,
  let '(rMin, rMax, gMin, gMax, bMin, bMax) := st in
  fold_left bounds_step ps st
  = ((fold_left minmax_step (channel Axis0 <$> ps) (rMin, rMax)).1,
     (fold_left minmax_step (channel Axis0 <$> ps) (rMin, rMax)).2,
     (fold_left minmax_step (channel Axis1 <$> ps) (gMin, gMax)).1,
     (fold_left minmax_step (channel Axis1 <$> ps) (gMin, gMax)).2,
     (fold_left minmax_step (channel Axis2 <$> ps) (bMin, bMax)).1,
     (fold_left minmax_step (channel Axis2 <$> ps) (bMin, bMax)).2).
Proof.
  induction ps as [|[[r g] b] ps IH];
    intros [[[[[rMin rMax] gMin] gMax] bMin] bMax]; [done|].
  rewrite !fmap_cons. simpl fold_left.
  specialize (IH (bounds_step (rMin, rMax, gMin, gMax, bMin, bMax) (r, g, b))).
  simpl in IH. rewrite IH. done.
Qed.

Lemma bounds_range_minmax axis ps :
  bounds_range axis ps
  = (fold_left minmax_step (channel axis <$> ps) (255, 0)).2
    - (fold_left minmax_step (channel axis <$> ps) (255, 0)).1.
Proof.
  unfold bounds_range, computeBounds.
  pose proof (bounds_fold_channels ps (255, 0, 255, 0, 255, 0)) as H.
  simpl in H. rewrite H. by destruct axis.
Qed.

Lemma axis_range_newColorBox axis ps :
  axis_range axis (newColorBox ps) = bounds_range axis ps.
Proof.
  unfold newColorBox, bounds_range.
  destruct (computeBounds ps) as [[rr gr] br]. by destruct axis.
Qed.

(** X1: for a box built from at least one pixel whose channels are
    bytes, each range computed by [computeBounds] is the spread of that
    channel: no two pixels of the box differ by more, and two pixels
    differ by exactly that much. *)
Theorem computeBounds_spread axis ps :
  ps <> [] ->
  Forall valid_pixel ps ->
  (forall p q, p ∈ ps -> q ∈ ps ->
     channel axis p - channel axis q <= axis_range axis (newColorBox ps)) /\
  (exists p q, p ∈ ps /\ q ∈ ps /\
     channel axis p - channel axis q = axis_range axis (newColorBox ps)).
Proof.
  intros Hne Hv. rewrite axis_range_newColorBox, bounds_range_minmax.
  destruct (minmax_fold_spec (channel axis <$> ps) 255 0)
    as (H1 & H2 & H3 & H4 & H5).
  set (st := fold_left minmax_step (channel axis <$> ps) (255, 0)) in *.
  rewrite Forall_forall in H3.
  assert (Hb : forall p, p ∈ ps -> 0 <= channel axis p <= 255).
  { rewrite Forall_forall in Hv. intros [[r g] b] Hp.
    specialize (Hv _ Hp) as (? & ? & ?). by destruct axis. }
  assert (Hin : forall p, p ∈ ps -> st.1 <= channel axis p <= st.2).
  { intros p Hp. apply H3, list_elem_of_fmap. by exists p. }
  split.
  - intros p q Hp Hq. pose proof (Hin p Hp). pose proof (Hin q Hq). lia.
  - destruct ps as [|p0 ps']; [done|].
    assert (Hp0 : p0 ∈ p0 :: ps') by (apply elem_of_cons; by left).
    assert (Hmax : exists p, p ∈ p0 :: ps' /\ channel axis p = st.2).
    { destruct H5 as [H5 | H5].
      - exists p0. split; [done|]. pose proof (Hin p0 Hp0).
        pose proof (Hb p0 Hp0). lia.
      - apply list_elem_of_fmap in H5 as (p & Hp & Hin'). by exists p. }
    assert (Hmin : exists q, q ∈ p0 :: ps' /\ channel axis q = st.1).
    { destruct H4 as [H4 | H4].
      - exists p0. split; [done|]. pose proof (Hin p0 Hp0).
        pose proof (Hb p0 Hp0). lia.
      - apply list_elem_of_fmap in H4 as (q & Hq & Hin'). by exists q. }
    destruct Hmax as (p & Hp & Hpv), Hmin as (q & Hq & Hqv).
    exists p, q. split; [done|]. split; [done|]. lia.
Qed.

Lemma computeBounds_spread_witness :
  scenario <> [] /\ Forall valid_pixel scenario /\
  (forall p q, p ∈ scenario -> q ∈ scenario ->
     channel Axis1 p - channel Axis1 q <= axis_range Axis1 (newColorBox scenario)) /\
  (exists p q, p ∈ scenario /\ q ∈ scenario /\
     channel Axis1 p - channel Axis1 q = axis_range Axis1 (newColorBox scenario)).
Proof.
  assert (Hv : Forall valid_pixel scenario)
    by (repeat constructor; unfold valid_pixel; lia).
  split; [discriminate|]. split; [exact Hv|].
  apply (computeBounds_spread Axis1 scenario); [discriminate|exact Hv].
Defined.

(** X2: [longestAxis] names an axis whose range is at least the range of
    each of the three axes. *)
Theorem longestAxis_maximal box axis :
  axis_range axis box <= axis_range (longestAxis box) box.
Proof.
  unfold longestAxis.
  destruct (Z.geb_spec (rRange box) (gRange box)),
           (Z.geb_spec (rRange box) (bRange box)),
           (Z.geb_spec (gRange box) (rRange box)),
           (Z.geb_spec (gRange box) (bRange box));
    destruct axis; simpl; lia.
Qed.

(** ** The two halves of a split *)

Section JsSortKey.
Context {A : Type} (cmp : A -> A -> Z) (key : A -> Z).
Hypothesis Hcmp : forall a b, cmp a b = key a - key b.

Lemma js_insert_key_sorted x l :
  StronglySorted (fun a b => key a <= key b) l ->
  StronglySorted (fun a b => key a <= key b) (js_insert cmp x l).
Proof.
  induction l as [|y l IH]; intros Hs; simpl; [repeat constructor|].
  apply StronglySorted_inv in Hs as [Hs Hy].
  rewrite Hcmp. destruct (Z.leb_spec (key x - key y) 0).
  - constructor; [by constructor|]. constructor; [lia|].
    eapply Forall_impl; [exact Hy|]. simpl. intros. lia.
  - constructor; [by apply IH|].
    apply Forall_forall. intros z Hz.
    rewrite js_insert_perm in Hz. apply elem_of_cons in Hz as [-> | Hz]; [lia|].
    rewrite Forall_forall in Hy. by apply Hy.
Qed.

Lemma js_sort_key_sorted l :
  StronglySorted (fun a b => key a <= key b) (js_sort cmp l).
Proof.
  induction l as [|x l IH]; simpl; [constructor|].
  by apply js_insert_key_sorted.
Qed.
End JsSortKey.

Lemma split_halves_perm box :
  pixels (split box).1 ++ pixels (split box).2 ≡ₚ pixels box.
Proof.
  destruct (split_pixels box) as [-> ->]. by rewrite take_drop, js_sort_perm.
Qed.

(** X3: [split] cuts along the longest axis: the two halves together hold
    the pixels of the box, and on the longest axis no pixel of the first
    half has a larger value than a pixel of the second half. *)
Theorem split_halves_ordered box :
  pixels (split box).1 ++ pixels (split box).2 ≡ₚ pixels box /\
  forall p q, p ∈ pixels (split box).1 -> q ∈ pixels (split box).2 ->
              channel (longestAxis box) p <= channel (longestAxis box) q.
Proof.
  destruct (split_pixels box) as [-> ->].
  set (cmp := fun a b : Pixel =>
                channel (longestAxis box) a - channel (longestAxis box) b).
  split; [by rewrite take_drop, js_sort_perm|].
  intros p q Hp Hq.
  pose proof (js_sort_key_sorted cmp (channel (longestAxis box))
                ltac:(done) (pixels box)) as Hs.
  rewrite <- (take_drop (length (pixels box) / 2) (js_sort cmp (pixels box))) in Hs.
  by eapply (StronglySorted_app_1_elem_of _ _ _ _ _ Hs).
Qed.

(** ** The boxes partition the pixels *)

Lemma splice2_concat_pixels k box b1 b2 (boxes : list ColorBox) :
  boxes !! k = Some box ->
  pixels b1 ++ pixels b2 ≡ₚ pixels box ->
  concat (pixels <$> splice2 k b1 b2 boxes) ≡ₚ concat (pixels <$> boxes).
Proof.
  intros Hk Hperm. unfold splice2.
  rewrite <- (take_drop_middle boxes k box Hk) at 3.
  rewrite !fmap_app, !concat_app, !fmap_cons. simpl.
  by rewrite app_nil_r, Hperm.
Qed.

Lemma reachable_partition pxs maxColors boxes :
  reachable pxs maxColors boxes -> concat (pixels <$> boxes) ≡ₚ pxs.
Proof.
  induction 1 as [|boxes boxes' _ IH Hstep].
  - simpl. by rewrite pixels_newColorBox, app_nil_r.
  - apply loop_step_Some in Hstep as (_ & k & box & Hbox & _ & ->).
    rewrite <- IH. apply (splice2_concat_pixels k box); [done|].
    apply split_halves_perm.
Qed.

Lemma concat_pixels_length (boxes : list ColorBox) :
  Forall (fun box => pixels box <> []) boxes ->
  (length boxes <= length (concat (pixels <$> boxes)))%nat /\
  (length boxes = length (concat (pixels <$> boxes)) ->
   Forall (fun box => length (pixels box) = 1%nat) boxes) /\
  (Forall (fun box => (length (pixels box) <= 1)%nat) boxes ->
   length boxes = length (concat (pixels <$> boxes))).
Proof.
  induction 1 as [|box boxes Hbox _ IH]; simpl.
  - repeat split; (done || constructor).
  - fold_fmap. rewrite length_app. destruct IH as (IH1 & IH2 & IH3).
    assert (1 <= length (pixels box))%nat
      by (destruct (pixels box); [done|simpl; lia]).
    split; [lia|]. split.
    + intros Heq. constructor; [lia|]. apply IH2. lia.
    + intros Hall. apply Forall_cons in Hall as [H1 Hall].
      specialize (IH3 Hall). lia.
Qed.

(** X4: on a non-empty buffer the palette of [medianCut] is the list of
    the means of the groups of a partition of the input: the groups are
    not empty and together they hold every input pixel exactly once. *)
Theorem medianCut_partition pxs maxColors :
  pxs <> [] ->
  exists boxes,
    medianCut pxs maxColors = Ok (map (fun box => mean_pixel (pixels box)) boxes) /\
    concat (pixels <$> boxes) ≡ₚ pxs /\
    Forall (fun box => pixels box <> []) boxes.
Proof.
  intros Hne.
  destruct (medianCut_spec pxs maxColors Hne) as (boxes & Hreach & _ & Hpal).
  exists boxes. split; [done|]. split; [by eapply reachable_partition|].
  eapply Forall_impl; [by eapply reachable_wf|]. by intros box [? _].
Qed.

Lemma medianCut_partition_witness :
  scenario <> [] /\
  exists boxes,
    medianCut scenario 3 = Ok (map (fun box => mean_pixel (pixels box)) boxes) /\
    concat (pixels <$> boxes) ≡ₚ scenario /\
    Forall (fun box => pixels box <> []) boxes.
Proof.
  split; [discriminate|]. apply (medianCut_partition scenario 3). discriminate.
Defined.

(** X5: on a non-empty buffer of [n] pixels the palette of [medianCut]
    has exactly [min (max 1 maxColors) n] entries: the loop goes on
    splitting, boxes of equal pixels included, until the requested number
    is reached or every box holds one pixel. *)
Theorem medianCut_palette_size pxs maxColors :
  pxs <> [] ->
  exists palette,
    medianCut pxs maxColors = Ok palette /\
    Z.of_nat (length palette)
    = Z.min (Z.max 1 maxColors) (Z.of_nat (length pxs)).
Proof.
  intros Hne.
  destruct (medianCut_spec pxs maxColors Hne) as (boxes & Hreach & Hstop & Hpal).
  eexists. split; [exact Hpal|]. rewrite length_map.
  pose proof (reachable_wf _ _ _ Hne Hreach) as Hwf.
  pose proof (reachable_length _ _ _ Hreach) as [Hl1 Hl2].
  pose proof (Permutation_length (reachable_partition _ _ _ Hreach)) as Hn.
  destruct (concat_pixels_length boxes) as (Hle & _ & Heq).
  { eapply Forall_impl; [exact Hwf|]. by intros box [? _]. }
  apply (loop_step_None _ _ Hwf) in Hstop as [Hcap | Hone].
  - lia.
  - specialize (Heq Hone). lia.
Qed.

Lemma medianCut_palette_size_witness :
  scenario <> [] /\
  exists palette,
    medianCut scenario 9 = Ok palette /\
    Z.of_nat (length palette) = Z.min (Z.max 1 9) (Z.of_nat (length scenario)).
Proof.
  split; [discriminate|]. apply (medianCut_palette_size scenario 9). discriminate.
Defined.

(** ** Palette entries stay within the input *)

Lemma sum_channel_range axis lo hi ps :
  Forall (fun p => lo <= channel axis p <= hi) ps ->
  lo * Z.of_nat (length ps) <= sum_channel axis ps <= hi * Z.of_nat (length ps).
Proof.
  intros H. rewrite sum_channel_foldr.
  induction H as [|p ps Hp _ IH]; [simpl; lia|].
  rewrite fmap_cons, length_cons. simpl foldr. lia.
Qed.

Lemma round_div_range s n lo hi :
  0 < n -> lo * n <= s <= hi * n -> lo <= round_div s n <= hi.
Proof. intros Hn Hs. pose proof (round_div_spec s n Hn). nia. Qed.

Lemma channel_mean_pixel axis ps :
  channel axis (mean_pixel ps)
  = round_div (sum_channel axis ps) (Z.of_nat (length ps)).
Proof. unfold mean_pixel. by destruct axis. Qed.

(** X6: averaging never leaves the range of the input: if on some
    channel every input pixel lies between [lo] and [hi], so does every
    palette entry. *)
Theorem palette_within_input_range pxs maxColors palette axis lo hi :
  Forall (fun p => lo <= channel axis p <= hi) pxs ->
  medianCut pxs maxColors = Ok palette ->
  Forall (fun q => lo <= channel axis q <= hi) palette.
Proof.
  intros Hv Hmc. destruct (decide (pxs = [])) as [-> | Hne].
  - injection Hmc as <-. constructor.
  - destruct (medianCut_spec pxs maxColors Hne) as (boxes & Hreach & _ & Hpal).
    rewrite Hpal in Hmc. injection Hmc as <-.
    pose proof (reachable_wf _ _ _ Hne Hreach) as Hwf.
    pose proof (reachable_pixels_subset _ _ _ _ Hv Hreach) as Hsub.
    apply Forall_fmap. rewrite Forall_forall in Hwf, Hsub.
    apply Forall_forall. intros box Hbox.
    change (lo <= channel axis (mean_pixel (pixels box)) <= hi).
    rewrite channel_mean_pixel. apply round_div_range.
    + destruct (Hwf box Hbox) as [Hb _].
      destruct (pixels box); [done|simpl; lia].
    + by apply sum_channel_range, Hsub.
Qed.

Lemma palette_within_input_range_witness :
  Forall (fun p => 0 <= channel Axis1 p <= 255) scenario /\
  medianCut scenario 2 = Ok [(0, 0, 0); (255, 128, 128)] /\
  Forall (fun q => 0 <= channel Axis1 q <= 255) [(0, 0, 0); (255, 128, 128)].
Proof.
  assert (Hv : Forall (fun p => 0 <= channel Axis1 p <= 255) scenario)
    by (repeat constructor; simpl; lia).
  split; [exact Hv|]. split; [reflexivity|].
  apply (palette_within_input_range scenario 2 _ Axis1 0 255 Hv). reflexivity.
Defined.

(** * Further properties of the assembled result *)

Lemma NoDup_fmap_inj_on {A B : Type} (f : A -> B) (l : list A) x y :
  NoDup (f <$> l) -> x ∈ l -> y ∈ l -> f x = f y -> x = y.
Proof.
  intros Hnd Hx Hy Heq.
  apply list_elem_of_lookup_1 in Hx as [i Hi].
  apply list_elem_of_lookup_1 in Hy as [j Hj].
  assert (Hfi : (f <$> l) !! i = Some (f x)) by (by rewrite list_lookup_fmap, Hi).
  assert (Hfj : (f <$> l) !! j = Some (f x)) by (by rewrite list_lookup_fmap, Hj, Heq).
  pose proof (NoDup_lookup _ _ _ _ Hnd Hfi Hfj) as <-.
  rewrite Hi in Hj. by injection Hj.
Qed.

Lemma sortedColors_entry counts e :
  e ∈ sortedColors counts <-> exists i, code e = code_of_index i /\
                                     js_sort by_count_desc counts !! i
                                     = Some (hex e, count e).
Proof.
  split.
  - intros He. apply list_elem_of_lookup_1 in He as [i Hi].
    exists i. by apply sortedColors_lookup.
  - intros (i & Hc & Hi). eapply list_elem_of_lookup_2.
    apply sortedColors_lookup. by split.
Qed.

Lemma sortedColors_hex_NoDup counts :
  NoDup counts.*1 -> NoDup (hex <$> sortedColors counts).
Proof.
  intros Hnd. destruct (sortedColors_fields counts) as (-> & _).
  by rewrite js_sort_perm.
Qed.

Lemma sortedColors_entry_counts counts e :
  e ∈ sortedColors counts -> (hex e, count e) ∈ counts.
Proof.
  intros He. apply sortedColors_entry in He as (i & _ & Hi).
  apply list_elem_of_lookup_2 in Hi. by rewrite js_sort_perm in Hi.
Qed.

Lemma colorMap_entry gridData counts c h :
  colorMap (assemble gridData counts) !! c = Some h ->
  exists e, e ∈ sortedColors counts /\ code e = c /\ hex e = h.
Proof.
  destruct (assemble_spec gridData counts) as (_ & -> & _).
  intros H. apply elem_of_list_to_map_2 in H. rewrite elem_of_reverse in H.
  apply list_elem_of_fmap in H as (e & [= -> ->] & He). by exists e.
Qed.

Lemma colorCounts_entry gridData counts c n :
  colorCounts (assemble gridData counts) !! c = Some n ->
  exists e, e ∈ sortedColors counts /\ code e = c /\ count e = n.
Proof.
  destruct (assemble_spec gridData counts) as (_ & _ & -> & _).
  intros H. apply elem_of_list_to_map_2 in H. rewrite elem_of_reverse in H.
  apply list_elem_of_fmap in H as (e & [= -> ->] & He). by exists e.
Qed.

Lemma assemble_grid_concat gridData counts :
  concat (grid (assemble gridData counts))
  = (fun h => jsmap_get h (fold_left (fun m e => jsmap_set (hex e) (code e) m)
                             (sortedColors counts) []))
    <$> concat gridData.
Proof.
  destruct (assemble_spec gridData counts) as (_ & _ & _ & ->).
  symmetry. apply concat_map.
Qed.

(** The cell written for a scanned value, for the tally of the scan. *)
Lemma assemble_cell_of_hex gridData hexes h :
  let counts := fold_left bump hexes [] in
  h ∈ hexes ->
  exists e, e ∈ sortedColors counts /\ hex e = h /\
            count e = occurrences h hexes /\
            jsmap_get h (fold_left (fun m e => jsmap_set (hex e) (code e) m)
                           (sortedColors counts) []) = Some (code e) /\
            colorMap (assemble gridData counts) !! code e = Some h.
Proof.
  intros counts Hh.
  destruct (tally_spec hexes) as (Hnd & Hkeys & Hget & _).
  fold counts in Hnd, Hkeys, Hget.
  destruct (hexToCode_get (sortedColors counts) h []) as (e & He & Hhe & Hcell).
  { destruct (sortedColors_fields counts) as (-> & _).
    rewrite js_sort_perm. by apply Hkeys. }
  exists e. split; [done|]. split; [done|].
  pose proof (sortedColors_entry_counts _ _ He) as Hin.
  apply (jsmap_get_elem _ _ _ Hnd) in Hin. rewrite Hhe, Hget in Hin by done.
  split; [by injection Hin|]. split; [done|].
  rewrite <- Hhe. by apply assemble_colorMap_lookup.
Qed.

(** X7: for a buffer of [rows * cols] pixels the grid has [rows] rows of
    [cols] cells each. *)
Theorem grid_shape pxs rows cols maxColors :
  length pxs = (rows * cols)%nat ->
  exists r,
    processImage pxs rows cols maxColors = Ok r /\
    length (grid r) = rows /\
    Forall (fun row => length row = cols) (grid r).
Proof.
  intros Hlen.
  destruct (processImage_spec pxs rows cols maxColors Hlen)
    as (palette & hexes & G & _ & _ & _ & Hn & Hw & Hrun).
  eexists. split; [exact Hrun|].
  destruct (assemble_spec G (fold_left bump hexes [])) as (_ & _ & _ & ->).
  rewrite length_map. split; [done|].
  apply Forall_fmap. eapply Forall_impl; [exact Hw|].
  intros row Hrow. simpl. by rewrite length_map.
Qed.

Lemma grid_shape_witness :
  length scenario = (2 * 2)%nat /\
  exists r,
    processImage scenario 2 2 4 = Ok r /\
    length (grid r) = 2%nat /\
    Forall (fun row => length row = 2%nat) (grid r).
Proof.
  split; [reflexivity|]. apply (grid_shape scenario 2 2 4). reflexivity.
Defined.

(** X8: for a buffer of [rows * cols] pixels [numColors] is the number of
    keys of [colorMap] and of [colorCounts], and the keys of both tables
    are exactly the codes of the indices [0 .. numColors - 1]. *)
Theorem numColors_counts_the_codes pxs rows cols maxColors :
  length pxs = (rows * cols)%nat ->
  exists r,
    processImage pxs rows cols maxColors = Ok r /\
    size (colorMap r) = numColors r /\
    size (colorCounts r) = numColors r /\
    dom (colorMap r) = list_to_set (code_of_index <$> seq 0 (numColors r)) /\
    dom (colorCounts r) = list_to_set (code_of_index <$> seq 0 (numColors r)).
Proof.
  intros Hlen.
  destruct (processImage_spec pxs rows cols maxColors Hlen)
    as (palette & hexes & G & _ & _ & _ & _ & _ & Hrun).
  eexists. split; [exact Hrun|].
  set (counts := fold_left bump hexes []).
  destruct (assemble_spec G counts) as (-> & -> & -> & _).
  pose proof (sortedColors_codes_NoDup counts) as Hnd.
  destruct (sortedColors_fields counts) as (_ & _ & Hcodes).
  rewrite !dom_list_to_map_L.
  rewrite (proj1 (pairs_keys code hex _)), (proj1 (pairs_keys code count _)).
  assert (Hsize : forall {V} (vf : ColorEntry -> V),
             size (list_to_map (reverse ((fun e => (code e, vf e))
                                           <$> sortedColors counts))
                   : gmap string V) = length counts).
  { intros V vf. rewrite <- length_map_to_list.
    rewrite map_to_list_to_map
      by (rewrite (proj1 (pairs_keys code vf _)); by rewrite reverse_Permutation).
    by rewrite length_reverse, length_fmap, sortedColors_length. }
  rewrite !Hsize, Hcodes. repeat split; try done.
  all: apply set_eq; intros c;
    by rewrite !elem_of_list_to_set, elem_of_reverse.
Qed.

Lemma numColors_counts_the_codes_witness :
  length scenario = (2 * 2)%nat /\
  exists r,
    processImage scenario 2 2 4 = Ok r /\
    size (colorMap r) = numColors r /\
    size (colorCounts r) = numColors r /\
    dom (colorMap r) = list_to_set (code_of_index <$> seq 0 (numColors r)) /\
    dom (colorCounts r) = list_to_set (code_of_index <$> seq 0 (numColors r)).
Proof.
  split; [reflexivity|].
  apply (numColors_counts_the_codes scenario 2 2 4). reflexivity.
Defined.

Lemma filter_length_fmap {A B : Type} (f : A -> B) (P : B -> Prop) (Q : A -> Prop)
    `{!forall y, Decision (P y)} `{!forall x, Decision (Q x)} (l : list A) :
  (forall x, x ∈ l -> P (f x) <-> Q x) ->
  length (filter P (f <$> l)) = length (filter Q l).
Proof.
  induction l as [|x l IH]; intros Hiff; [done|].
  rewrite fmap_cons, !filter_cons.
  assert (Hx : P (f x) <-> Q x) by (apply Hiff, elem_of_cons; by left).
  assert (IH' : length (filter P (f <$> l)) = length (filter Q l)).
  { apply IH. intros y Hy. apply Hiff, elem_of_cons. by right. }
  destruct (decide (P (f x))), (decide (Q x)); simpl; try tauto; by rewrite IH'.
Qed.

(** X9: for a buffer of [rows * cols] pixels every count in [colorCounts]
    is at least 1 and is the number of grid cells that hold its code. *)
Theorem counts_match_grid pxs rows cols maxColors :
  length pxs = (rows * cols)%nat ->
  exists r,
    processImage pxs rows cols maxColors = Ok r /\
    forall c n, colorCounts r !! c = Some n ->
                (1 <= n)%nat /\ n = cells_with c (grid r).
Proof.
  intros Hlen.
  destruct (processImage_spec pxs rows cols maxColors Hlen)
    as (palette & hexes & G & _ & _ & Hcat & _ & _ & Hrun).
  eexists. split; [exact Hrun|]. intros c n Hc.
  set (counts := fold_left bump hexes []) in *.
  apply colorCounts_entry in Hc as (e & He & <- & <-).
  destruct (tally_spec hexes) as (Hnd & Hkeys & Hget & _).
  fold counts in Hnd, Hkeys, Hget.
  pose proof (sortedColors_entry_counts _ _ He) as Hin.
  assert (Hhex : hex e ∈ hexes).
  { apply Hkeys, list_elem_of_fmap. by exists (hex e, count e). }
  apply (jsmap_get_elem _ _ _ Hnd) in Hin. rewrite Hget in Hin by done.
  injection Hin as Hcount.
  assert (Hcells : cells_with (code e) (grid (assemble G counts))
                   = occurrences (hex e) hexes).
  { unfold cells_with, occurrences. rewrite assemble_grid_concat, Hcat.
    apply filter_length_fmap. intros h Hh.
    destruct (assemble_cell_of_hex G hexes h Hh) as (e' & He' & Hh' & _ & Hcell & _).
    fold counts in He', Hcell. rewrite Hcell. split.
    - intros [= Hcode]. rewrite <- Hh'. f_equal.
      by apply (NoDup_fmap_inj_on code (sortedColors counts));
        [apply sortedColors_codes_NoDup|..].
    - intros ->. do 2 f_equal.
      by apply (NoDup_fmap_inj_on hex (sortedColors counts));
        [apply sortedColors_hex_NoDup|..]. }
  assert (Hpos : (1 <= occurrences (hex e) hexes)%nat).
  { unfold occurrences.
    assert (Hfil : hex e ∈ filter (fun x => x = hex e) hexes)
      by (by apply list_elem_of_filter).
    destruct (filter (fun x => x = hex e) hexes) as [|y ys].
    - by apply elem_of_nil in Hfil.
    - simpl. lia. }
  rewrite Hcells. lia.
Qed.

Lemma counts_match_grid_witness :
  length scenario = (2 * 2)%nat /\
  exists r,
    processImage scenario 2 2 4 = Ok r /\
    forall c n, colorCounts r !! c = Some n ->
                (1 <= n)%nat /\ n = cells_with c (grid r).
Proof.
  split; [reflexivity|]. apply (counts_match_grid scenario 2 2 4). reflexivity.
Defined.

Lemma classification_fmap palette (pxs : list Pixel) hexes :
  Forall2 (fun p h => nearest_hex palette p = Some h) pxs hexes ->
  nearest_hex palette <$> pxs = Some <$> hexes.
Proof. induction 1 as [|p h pxs hexes Hp _ IH]; [done|]. by rewrite !fmap_cons, Hp, IH. Qed.

Lemma processImage_decoded pxs rows cols maxColors :
  length pxs = (rows * cols)%nat ->
  exists palette r,
    medianCut pxs maxColors = Ok palette /\
    processImage pxs rows cols maxColors = Ok r /\
    cell_color (colorMap r) <$> concat (grid r) = nearest_hex palette <$> pxs.
Proof.
  intros Hlen.
  destruct (processImage_spec pxs rows cols maxColors Hlen)
    as (palette & hexes & G & Hpal & Hclass & Hcat & _ & _ & Hrun).
  exists palette. eexists. split; [done|]. split; [exact Hrun|].
  rewrite (classification_fmap _ _ _ Hclass), assemble_grid_concat, Hcat.
  rewrite <- list_fmap_compose. apply list_fmap_ext. intros i h Hi. simpl.
  apply list_elem_of_lookup_2 in Hi.
  destruct (assemble_cell_of_hex G hexes h Hi) as (e & _ & _ & _ & -> & Hmap).
  exact Hmap.
Qed.

(** X10: for a buffer of [rows * cols] pixels, reading the grid in
    row-major order and looking every cell up in [colorMap] gives, pixel by
    pixel, the hex string of the palette entry nearest to that pixel. *)
Theorem grid_decodes_to_nearest pxs rows cols maxColors :
  length pxs = (rows * cols)%nat ->
  exists palette r,
    medianCut pxs maxColors = Ok palette /\
    processImage pxs rows cols maxColors = Ok r /\
    cell_color (colorMap r) <$> concat (grid r) = nearest_hex palette <$> pxs.
Proof. apply processImage_decoded. Qed.

Lemma grid_decodes_to_nearest_witness :
  length scenario = (2 * 2)%nat /\
  exists palette r,
    medianCut scenario 2 = Ok palette /\
    processImage scenario 2 2 2 = Ok r /\
    cell_color (colorMap r) <$> concat (grid r) = nearest_hex palette <$> scenario.
Proof.
  split; [reflexivity|]. apply (grid_decodes_to_nearest scenario 2 2 2). reflexivity.
Defined.

(** X11: for a buffer of [rows * cols] pixels every colour of [colorMap] is
    in use: it is the hex string of a palette entry that is the nearest
    one for at least one input pixel. *)
Theorem colorMap_colors_in_use pxs rows cols maxColors :
  length pxs = (rows * cols)%nat ->
  exists palette r,
    medianCut pxs maxColors = Ok palette /\
    processImage pxs rows cols maxColors = Ok r /\
    forall c h, colorMap r !! c = Some h ->
      exists p q, p ∈ pxs /\ q ∈ palette /\
                  findNearestColor p.1.1 p.1.2 p.2 palette = Some q /\
                  h = pixel_hex q.
Proof.
  intros Hlen.
  destruct (processImage_spec pxs rows cols maxColors Hlen)
    as (palette & hexes & G & Hpal & Hclass & _ & _ & _ & Hrun).
  exists palette. eexists. split; [done|]. split; [exact Hrun|].
  intros c h Hc. apply colorMap_entry in Hc as (e & He & _ & <-).
  destruct (tally_spec hexes) as (_ & Hkeys & _).
  assert (Hin : hex e ∈ hexes).
  { apply Hkeys, list_elem_of_fmap. exists (hex e, count e).
    split; [done|]. by apply sortedColors_entry_counts. }
  apply list_elem_of_lookup_1 in Hin as [i Hi].
  destruct (Forall2_lookup_r _ _ _ _ _ Hclass Hi) as ([[r g] b] & Hp & Hn).
  unfold nearest_hex in Hn.
  destruct (findNearestColor r g b palette) as [[[pr pg] pb]|] eqn:Hq; [|done].
  injection Hn as Hn. exists (r, g, b), (pr, pg, pb).
  split; [by eapply list_elem_of_lookup_2|]. split; [|by split].
  destruct (decide (palette = [])) as [-> | Hne]; [done|].
  destruct (findNearestColor_elem r g b palette Hne) as (q & Hq' & Hqin).
  rewrite Hq in Hq'. by injection Hq' as <-.
Qed.

Lemma colorMap_colors_in_use_witness :
  length scenario = (2 * 2)%nat /\
  exists palette r,
    medianCut scenario 3 = Ok palette /\
    processImage scenario 2 2 3 = Ok r /\
    forall c h, colorMap r !! c = Some h ->
      exists p q, p ∈ scenario /\ q ∈ palette /\
                  findNearestColor p.1.1 p.1.2 p.2 palette = Some q /\
                  h = pixel_hex q.
Proof.
  split; [reflexivity|]. apply (colorMap_colors_in_use scenario 2 2 3). reflexivity.
Defined.

(** ** A buffer that is too short *)

Section ScanShort.
Variables (pxs palette : list Pixel) (hexes : list string).
Hypothesis Hclass :
  Forall2 (fun p h => nearest_hex palette p = Some h) pxs hexes.

Lemma scan_row_short cols : forall st,
  (pixelIdx st <= length pxs < pixelIdx st + cols)%nat ->
  scan_row pxs palette cols st = Throw TypeError.
Proof.
  induction cols as [|cols IH]; intros st Hst; simpl; [lia|].
  destruct (decide (pixelIdx st < length pxs)%nat) as [Hlt | Hge].
  - destruct (scan_cell_spec pxs palette hexes Hclass st Hlt) as (h & _ & ->).
    simpl. apply IH. simpl. lia.
  - unfold scan_cell. rewrite lookup_ge_None_2 by lia. done.
Qed.

Lemma scan_rows_short targetWidth rows : forall gridData counts idx,
  (idx <= length pxs < idx + rows * targetWidth)%nat ->
  scan_rows pxs palette targetWidth rows gridData counts idx = Throw TypeError.
Proof.
  induction rows as [|rows IH]; intros gridData counts idx Hidx; simpl; [lia|].
  destruct (decide (idx + targetWidth <= length pxs)%nat) as [Hfit | Hshort].
  - rewrite (scan_row_spec pxs palette hexes Hclass) by (simpl; lia). simpl.
    apply IH. lia.
  - rewrite scan_row_short by (simpl; lia). done.
Qed.
End ScanShort.

(** X12: a buffer with fewer than [rows * cols] pixels makes [processImage]
    fail with a TypeError (the scan reads a pixel that is not there); no
    result is returned. *)
Theorem short_buffer_throws pxs rows cols maxColors :
  (length pxs < rows * cols)%nat ->
  processImage pxs rows cols maxColors = Throw TypeError.
Proof.
  intros Hshort.
  destruct (medianCut_total pxs maxColors) as (palette & Hmc & Hne & _).
  destruct (classification_exists palette pxs Hne) as [hexes Hclass].
  unfold processImage. rewrite Hmc. simpl.
  rewrite (scan_rows_short pxs palette hexes Hclass) by lia. done.
Qed.

Lemma short_buffer_throws_witness :
  (length scenario < 2 * 3)%nat /\
  processImage scenario 2 3 2 = Throw TypeError.
Proof.
  split; [simpl; lia|]. apply (short_buffer_throws scenario 2 3 2). simpl. lia.
Defined.

(** ** As many colours as pixels *)

Lemma mean_pixel_single p : mean_pixel [p] = p.
Proof. apply mean_pixel_uniform; [done|by repeat constructor]. Qed.

Lemma medianCut_all_pixels pxs maxColors :
  pxs <> [] ->
  Z.of_nat (length pxs) <= maxColors ->
  exists palette,
    medianCut pxs maxColors = Ok palette /\ forall p, p ∈ pxs -> p ∈ palette.
Proof.
  intros Hne Hmc.
  destruct (medianCut_spec pxs maxColors Hne) as (boxes & Hreach & Hstop & Hpal).
  eexists. split; [exact Hpal|].
  pose proof (reachable_wf _ _ _ Hne Hreach) as Hwf.
  pose proof (reachable_partition _ _ _ Hreach) as Hperm.
  destruct (concat_pixels_length boxes) as (Hle & Hall & Heq).
  { eapply Forall_impl; [exact Hwf|]. by intros box [? _]. }
  assert (Hone : Forall (fun box => length (pixels box) = 1%nat) boxes).
  { apply (loop_step_None _ _ Hwf) in Hstop as [Hcap | Hone].
    - apply Hall. apply Permutation_length in Hperm. lia.
    - apply Hall, Heq, Hone. }
  intros p Hp. rewrite <- Hperm in Hp.
  apply list_elem_of_In, in_concat in Hp as (ps & Hps & Hin).
  apply list_elem_of_In, list_elem_of_fmap in Hps as (box & -> & Hbox).
  apply list_elem_of_In in Hin.
  rewrite Forall_forall in Hone. specialize (Hone box Hbox).
  apply list_elem_of_fmap. exists box. split; [|done].
  destruct (pixels box) as [|p0 [|p1 rest]]; try done.
  apply list_elem_of_singleton in Hin as ->. by rewrite mean_pixel_single.
Qed.

(** X13: when [maxColors] is at least the number of pixels nothing is
    lost: every pixel is its own palette entry, and every grid cell maps,
    through [colorMap], to the hex string of the input pixel it stands
    for. *)
Theorem no_loss_with_enough_colors pxs rows cols maxColors :
  pxs <> [] ->
  length pxs = (rows * cols)%nat ->
  Z.of_nat (length pxs) <= maxColors ->
  exists r,
    processImage pxs rows cols maxColors = Ok r /\
    cell_color (colorMap r) <$> concat (grid r)
    = (fun p => Some (pixel_hex p)) <$> pxs.
Proof.
  intros Hne Hlen Hmc.
  destruct (processImage_decoded pxs rows cols maxColors Hlen)
    as (palette & r & Hpal & Hrun & Hdec).
  destruct (medianCut_all_pixels pxs maxColors Hne Hmc) as (palette' & Hpal' & Hin).
  rewrite Hpal in Hpal'. injection Hpal' as <-.
  exists r. split; [done|]. rewrite Hdec.
  apply list_fmap_ext. intros i [[r0 g0] b0] Hi.
  apply list_elem_of_lookup_2, Hin in Hi. unfold nearest_hex.
  by rewrite (findNearestColor_member _ _ _ _ Hi).
Qed.

Lemma no_loss_with_enough_colors_witness :
  scenario <> [] /\ length scenario = (2 * 2)%nat /\
  Z.of_nat (length scenario) <= 4 /\
  exists r,
    processImage scenario 2 2 4 = Ok r /\
    cell_color (colorMap r) <$> concat (grid r)
    = (fun p => Some (pixel_hex p)) <$> scenario.
Proof.
  split; [discriminate|]. split; [reflexivity|]. split; [simpl; lia|].
  apply (no_loss_with_enough_colors scenario 2 2 4);
    [discriminate|reflexivity|simpl; lia].
Defined.

(** ** The hex strings of byte colours *)

Lemma hex2_table_upper :
  Forall (fun h => forallb is_upper_hex (list_ascii_of_string h) = true)
         (hex2 <$> seqZ 0 256).
Proof. apply (bool_decide_unpack _). by vm_compute. Qed.

Lemma hex2_upper x :
  0 <= x <= 255 -> forallb is_upper_hex (list_ascii_of_string (hex2 x)) = true.
Proof.
  intros Hx. pose proof hex2_table_upper as H. rewrite Forall_forall in H.
  apply H. eapply list_elem_of_lookup_2. by apply hex2_table_lookup.
Qed.

Lemma list_ascii_of_string_app (a b : string) :
  list_ascii_of_string (String.append a b)
  = list_ascii_of_string a ++ list_ascii_of_string b.
Proof.
  induction a as [|c a IH]; [done|].
  rewrite append_cons. simpl. by rewrite IH.
Qed.

Lemma string_length_app (a b : string) :
  String.length (String.append a b) = (String.length a + String.length b)%nat.
Proof. induction a as [|c a IH]; [done|]. rewrite append_cons. simpl. by rewrite IH. Qed.

(** X14: on byte channels [rgbToHex] writes ['#'] followed by six
    characters among [0-9A-F], and different colours get different
    strings. *)
Theorem rgbToHex_bytes r g b r' g' b' :
  valid_pixel (r, g, b) -> valid_pixel (r', g', b') ->
  (exists digits,
     rgbToHex r g b = String "#" digits /\
     String.length digits = 6%nat /\
     forallb is_upper_hex (list_ascii_of_string digits) = true) /\
  (rgbToHex r g b = rgbToHex r' g' b' -> (r, g, b) = (r', g', b')).
Proof.
  intros Hv Hv'. split.
  - destruct Hv as (Hr & Hg & Hb). unfold rgbToHex.
    rewrite append_cons, append_nil_l. eexists. split; [done|].
    rewrite !string_length_app, !hex2_length by done. split; [done|].
    rewrite !list_ascii_of_string_app, !forallb_app, !hex2_upper by done. done.
  - apply (pixel_hex_inj (r, g, b) (r', g', b') Hv Hv').
Qed.

Lemma rgbToHex_bytes_witness :
  valid_pixel (255, 10, 0) /\ valid_pixel (255, 10, 1) /\
  (exists digits,
     rgbToHex 255 10 0 = String "#" digits /\
     String.length digits = 6%nat /\
     forallb is_upper_hex (list_ascii_of_string digits) = true) /\
  (rgbToHex 255 10 0 = rgbToHex 255 10 1 -> (255, 10, 0) = (255, 10, 1)).
Proof.
  assert (H0 : valid_pixel (255, 10, 0)) by (unfold valid_pixel; lia).
  assert (H1 : valid_pixel (255, 10, 1)) by (unfold valid_pixel; lia).
  split; [exact H0|]. split; [exact H1|].
  apply (rgbToHex_bytes 255 10 0 255 10 1 H0 H1).
Defined.

(** * The grid CSV *)

Lemma append_assoc (a b c : string) :
  String.append (String.append a b) c = String.append a (String.append b c).
Proof. induction a as [|x a IH]; [done|]. rewrite !append_cons. by rewrite IH. Qed.

Lemma char_free_app sep (a b : string) :
  char_free sep (String.append a b) = char_free sep a && char_free sep b.
Proof.
  induction a as [|c a IH]; [done|]. rewrite append_cons. simpl.
  by destruct (decide (c = sep)).
Qed.

Lemma split_on_free sep a : char_free sep a = true -> split_on sep a = [a].
Proof.
  induction a as [|c a IH]; simpl; [done|].
  destruct (decide (c = sep)); [done|]. intros H. by rewrite IH.
Qed.

Lemma split_on_app sep a b :
  char_free sep a = true ->
  split_on sep (String.append a (String sep b)) = a :: split_on sep b.
Proof.
  induction a as [|c a IH].
  - intros _. rewrite append_nil_l. simpl. by rewrite decide_True.
  - simpl char_free. destruct (decide (c = sep)) as [|Hne]; [done|]. intros H.
    rewrite append_cons. simpl. rewrite decide_False by done. by rewrite IH.
Qed.

Lemma split_on_join sep (fields : list string) :
  fields <> [] ->
  Forall (fun f => char_free sep f = true) fields ->
  split_on sep (String.concat (String sep EmptyString) fields) = fields.
Proof.
  intros Hne H. induction H as [|x l Hx Hl IH]; [done|].
  destruct l as [|y l].
  - simpl. by apply split_on_free.
  - change (String.concat (String sep EmptyString) (x :: y :: l))
      with (String.append x (String.append (String sep EmptyString)
              (String.concat (String sep EmptyString) (y :: l)))).
    rewrite append_cons, append_nil_l, split_on_app by done.
    by rewrite IH.
Qed.

Lemma digits_char_free sep d :
  is_upper_hex sep = false ->
  char_free sep (DecimalString.NilEmpty.string_of_uint d) = true.
Proof.
  intros Hsep. induction d; simpl; try done;
    (destruct (decide (_ = sep)) as [<- | _]; [done|exact IHd]).
Qed.

Lemma padStart_char_free sep n c s :
  c <> sep -> char_free sep s = true -> char_free sep (padStart n c s) = true.
Proof.
  intros Hc Hs. unfold padStart. rewrite char_free_app, Hs, andb_true_r.
  induction (n - String.length s)%nat as [|k IH]; simpl; [done|].
  by rewrite decide_False.
Qed.

Lemma label_char_free sep (c : ascii) n :
  is_upper_hex sep = false -> c <> sep ->
  char_free sep (String.append (String c EmptyString)
                   (padStart 2 "0" (toString10 n))) = true.
Proof.
  intros Hsep Hc. rewrite append_cons, append_nil_l. simpl.
  rewrite decide_False by done.
  apply padStart_char_free; [by intros <-|]. by apply digits_char_free.
Qed.

Lemma fold_csv_add_row entries : forall csv,
  fold_left csv_add_row entries csv
  = String.append csv
      (foldr (fun e rest =>
                String.append
                  (String.append (row_label e.1)
                     (String.append ","
                        (String.concat "," (cell_text <$> e.2))))
                  (String.append newline rest))
             EmptyString entries).
Proof.
  induction entries as [|e entries IH]; intros csv; simpl.
  - induction csv as [|c csv IHc]; [done|]. by rewrite append_cons, <- IHc.
  - rewrite IH. unfold csv_add_row. by rewrite !append_assoc.
Qed.

Lemma split_on_lines (lines : list string) :
  Forall (fun l => char_free "010" l = true) lines ->
  split_on "010"
    (foldr (fun l rest => String.append l (String.append newline rest))
           EmptyString lines)
  = lines ++ [EmptyString].
Proof.
  induction 1 as [|l lines Hl _ IH]; [done|]. simpl foldr.
  unfold newline at 1. rewrite append_cons, append_nil_l.
  rewrite split_on_app by done. by rewrite IH.
Qed.

Lemma imap_pair_snd {A : Type} (l : list A) : (imap pair l).*2 = l.
Proof.
  rewrite fmap_imap. rewrite <- (list_fmap_id l) at 2.
  rewrite <- imap_const. by apply imap_ext.
Qed.

Lemma row_line_split idx (cells : list string) :
  cells <> [] ->
  Forall (fun c => char_free "," c = true) cells ->
  drop 1 (split_on ","
            (String.append (row_label idx)
               (String.append "," (String.concat "," cells))))
  = cells.
Proof.
  intros Hne Hfree.
  change (String.append "," (String.concat "," cells))
    with (String.append (String "," EmptyString) (String.concat "," cells)).
  rewrite append_cons, append_nil_l, split_on_app.
  - simpl. by apply split_on_join.
  - by apply label_char_free.
Qed.

Lemma join_char_free sep (c : ascii) (fields : list string) :
  c <> sep ->
  Forall (fun f => char_free sep f = true) fields ->
  char_free sep (String.concat (String c EmptyString) fields) = true.
Proof.
  intros Hc H. induction H as [|x l Hx Hl IH]; [done|].
  destruct l as [|y l]; [done|].
  change (String.concat (String c EmptyString) (x :: y :: l))
    with (String.append x (String.append (String c EmptyString)
            (String.concat (String c EmptyString) (y :: l)))).
  rewrite char_free_app, Hx, append_cons, append_nil_l. simpl.
  by rewrite decide_False.
Qed.

Lemma generateGridCSV_parse (res : Result) :
  grid res <> [] ->
  Forall (fun row =>
            row <> [] /\
            Forall (fun cell => char_free "," (cell_text cell) = true /\
                                char_free "010" (cell_text cell) = true) row)
         (grid res) ->
  exists csv,
    generateGridCSV (Some res) = Ok csv /\
    parse_grid_csv csv
    = (fun row : list (option string) => cell_text <$> row) <$> grid res.
Proof.
  intros Hne Hrows. unfold generateGridCSV.
  destruct (grid res) as [|row0 g] eqn:Hg; [done|]. simpl lookup. cbv iota beta.
  rewrite <- Hg in *. eexists. split; [done|].
  rewrite fold_csv_add_row.
  set (line := fun e : nat * list (option string) =>
                 String.append (row_label e.1)
                   (String.append "," (String.concat "," (cell_text <$> e.2)))).
  set (hdr := String.append "row,"
                (String.concat "," (column_label <$> seq 0 (length row0)))).
  assert (Hcsv : String.append (String.append hdr newline)
                   (foldr (fun e rest => String.append (line e)
                                           (String.append newline rest))
                          EmptyString (imap pair (grid res)))
                 = foldr (fun l rest => String.append l (String.append newline rest))
                         EmptyString (hdr :: (line <$> imap pair (grid res)))).
  { simpl foldr. rewrite append_assoc. do 2 f_equal.
    induction (imap pair (grid res)) as [|e es IH]; [done|].
    rewrite fmap_cons. simpl foldr. by rewrite IH. }
  unfold parse_grid_csv.
  change (String.append "row," (String.append
            (String.concat "," (column_label <$> seq 0 (length row0))) newline))
    with (String.append "row," (String.append
            (String.concat "," (column_label <$> seq 0 (length row0))) newline)).
  replace (String.append "row," (String.append
            (String.concat "," (column_label <$> seq 0 (length row0))) newline))
    with (String.append hdr newline) by (unfold hdr; by rewrite append_assoc).
  unfold line in Hcsv at 1. cbv beta in Hcsv. rewrite Hcsv, split_on_lines.
  - rewrite length_app, length_cons. simpl length.
    replace (S (length (line <$> imap pair (grid res))) + 1 - 1)%nat
      with (length (hdr :: (line <$> imap pair (grid res)))) by (simpl; lia).
    rewrite take_app_length. simpl drop. rewrite drop_0.
    rewrite <- list_fmap_compose.
    rewrite <- (imap_pair_snd (grid res)) at 2. rewrite <- list_fmap_compose.
    apply list_fmap_ext. intros i [idx row] Hi. simpl.
    assert (Hrow : row ∈ grid res).
    { rewrite <- (imap_pair_snd (grid res)). apply list_elem_of_fmap.
      exists (idx, row). split; [done|]. by eapply list_elem_of_lookup_2. }
    rewrite Forall_forall in Hrows. destruct (Hrows row Hrow) as [Hrne Hcells].
    unfold line. simpl. apply row_line_split.
    + destruct row; [done|]. by rewrite fmap_cons.
    + apply Forall_fmap. eapply Forall_impl; [exact Hcells|]. by intros c [? _].
  - constructor.
    + unfold hdr. rewrite char_free_app. apply andb_true_iff. split; [done|].
      apply join_char_free; [done|]. apply Forall_fmap, Forall_forall.
      intros i _. by apply label_char_free.
    + apply Forall_fmap, Forall_forall. intros [idx row] He.
      assert (Hrow : row ∈ grid res).
      { rewrite <- (imap_pair_snd (grid res)). apply list_elem_of_fmap.
        by exists (idx, row). }
      rewrite Forall_forall in Hrows. destruct (Hrows row Hrow) as [_ Hcells].
      unfold line, compose. cbn [fst snd].
      pose proof (label_char_free "010" "r" (idx + 1) eq_refl ltac:(done)) as Hlab.
      change (char_free "010" (row_label idx) = true) in Hlab.
      rewrite char_free_app, Hlab, char_free_app. simpl.
      apply join_char_free; [done|].
      apply Forall_fmap. eapply Forall_impl; [exact Hcells|]. by intros c [_ ?].
Qed.

(** X15: for a result whose grid has at least one row, no empty row and
    no cell text with a comma or a line break, [generateGridCSV] returns a
    text that reads back, line by line and field by field, as the cell
    texts of the grid (header line and row labels left out). *)
Theorem grid_csv_round_trip (res : Result) :
  grid res <> [] ->
  Forall (fun row =>
            row <> [] /\
            Forall (fun cell => char_free "," (cell_text cell) = true /\
                                char_free "010" (cell_text cell) = true) row)
         (grid res) ->
  exists csv,
    generateGridCSV (Some res) = Ok csv /\
    parse_grid_csv csv
    = (fun row : list (option string) => cell_text <$> row) <$> grid res.
Proof. apply generateGridCSV_parse. Qed.

Lemma grid_csv_round_trip_witness :
  let res := {| grid := [[Some "C01"; None]; [Some "C02"; Some "C01"]];
                colorMap := ∅; colorCounts := ∅; numColors := 2 |} in
  grid res <> [] /\
  exists csv,
    generateGridCSV (Some res) = Ok csv /\
    parse_grid_csv csv
    = (fun row : list (option string) => cell_text <$> row) <$> grid res.
Proof.
  split; [discriminate|].
  apply (grid_csv_round_trip
           {| grid := [[Some "C01"; None]; [Some "C02"; Some "C01"]];
              colorMap := ∅; colorCounts := ∅; numColors := 2 |});
    [discriminate|].
  repeat (constructor; try discriminate; try done).
Defined.

(** X16: for a buffer of [rows * cols] pixels with at least one row and
    one column, the CSV that [generateGridCSV] writes for the result of
    [processImage] reads back as the grid of codes. *)
Theorem processImage_csv_round_trip pxs rows cols maxColors :
  length pxs = (rows * cols)%nat ->
  (1 <= rows)%nat -> (1 <= cols)%nat ->
  exists r csv,
    processImage pxs rows cols maxColors = Ok r /\
    generateGridCSV (Some r) = Ok csv /\
    (fun fields : list string => Some <$> fields) <$> parse_grid_csv csv = grid r.
Proof.
  intros Hlen Hrows Hcols.
  destruct (processImage_spec pxs rows cols maxColors Hlen)
    as (palette & hexes & G & _ & _ & Hcat & Hn & Hw & Hrun).
  set (counts := fold_left bump hexes []) in *.
  set (r := assemble G counts) in *.
  destruct (tally_spec hexes) as (_ & Hkeys & _). fold counts in Hkeys.
  assert (Hcell : forall row cell, row ∈ grid r -> cell ∈ row ->
                    exists i, cell = Some (code_of_index i)).
  { intros row cell Hrow Hc.
    destruct (assemble_grid_cell G counts row cell) as (e & h & He & _ & _ & ->);
      [|exact Hrow|exact Hc|].
    - intros h Hh. apply Hkeys. by rewrite <- Hcat.
    - apply sortedColors_entry in He as (i & -> & _). by exists i. }
  assert (Hshape : length (grid r) = rows /\
                   Forall (fun row => length row = cols) (grid r)).
  { destruct (assemble_spec G counts) as (_ & _ & _ & Hg). fold r in Hg.
    rewrite Hg, length_map. split; [done|].
    apply Forall_fmap. eapply Forall_impl; [exact Hw|].
    intros row Hrow. simpl. by rewrite length_map. }
  destruct Hshape as [Hlen_g Hwidth].
  destruct (generateGridCSV_parse r) as (csv & Hcsv & Hparse).
  { destruct (grid r); [simpl in Hlen_g; lia|done]. }
  { rewrite Forall_forall in Hwidth. apply Forall_forall. intros row Hrow. split.
    - specialize (Hwidth row Hrow). destruct row; [simpl in Hwidth; lia|done].
    - apply Forall_forall. intros cell Hc.
      destruct (Hcell row cell Hrow Hc) as [i ->].
      split; by apply (label_char_free _ "C" (i + 1)). }
  exists r, csv. split; [done|]. split; [done|].
  rewrite Hparse, <- list_fmap_compose.
  rewrite <- (list_fmap_id (grid r)) at 2.
  apply Forall_fmap_ext, Forall_forall. intros row Hrow. simpl.
  rewrite <- list_fmap_compose. rewrite <- (list_fmap_id row) at 2.
  apply Forall_fmap_ext, Forall_forall. intros cell Hc. simpl.
  by destruct (Hcell row cell Hrow Hc) as [i ->].
Qed.

Lemma processImage_csv_round_trip_witness :
  length scenario = (2 * 2)%nat /\ (1 <= 2)%nat /\
  exists r csv,
    processImage scenario 2 2 2 = Ok r /\
    generateGridCSV (Some r) = Ok csv /\
    (fun fields : list string => Some <$> fields) <$> parse_grid_csv csv = grid r.
Proof.
  split; [reflexivity|]. split; [lia|].
  apply (processImage_csv_round_trip scenario 2 2 2); [reflexivity|lia|lia].
Defined.

(** * The colour-complexity estimate *)

Lemma colorSet_fold (keys : list string) : forall acc : gset string,
  fold_left (fun set k => {[ k ]} ∪ set) keys acc = list_to_set keys ∪ acc.
Proof.
  induction keys as [|k keys IH]; intros acc; simpl.
  - set_solver.
  - rewrite IH. set_solver.
Qed.

Lemma estimateColorComplexity_set data :
  estimateColorComplexity data
  = suggested_colors (size (list_to_set (color_key <$> data) : gset string)).
Proof.
  unfold estimateColorComplexity. f_equal. f_equal.
  assert (H : forall acc : gset string,
             fold_left (fun set px => {[ color_key px ]} ∪ set) data acc
             = fold_left (fun set k => {[ k ]} ∪ set) (color_key <$> data) acc).
  { induction data as [|px data IH]; intros acc; [done|]. simpl. apply IH. }
  rewrite H, colorSet_fold. set_solver.
Qed.

Lemma suggested_colors_mono m n :
  (m <= n)%nat -> suggested_colors m <= suggested_colors n.
Proof.
  intros Hmn. unfold suggested_colors.
  repeat match goal with
         | |- context [(?a <? ?b)%nat] => destruct (Nat.ltb_spec a b)
         end; lia.
Qed.

(** X18: looking at more pixels never lowers the suggestion of
    [estimateColorComplexity], and the suggestion is always between 10
    and 30. *)
Theorem estimateColorComplexity_monotone data more :
  10 <= estimateColorComplexity data /\
  estimateColorComplexity data <= estimateColorComplexity (data ++ more) /\
  estimateColorComplexity (data ++ more) <= 30.
Proof.
  rewrite !estimateColorComplexity_set. split; [|split].
  - unfold suggested_colors. repeat case_match; lia.
  - apply suggested_colors_mono, subseteq_size.
    rewrite fmap_app, list_to_set_app_L. set_solver.
  - unfold suggested_colors. repeat case_match; lia.
Qed.

Lemma toStringZ_comma_free z : char_free "," (toStringZ z) = true.
Proof.
  unfold toStringZ. destruct (Z.to_int z) as [d | d]; simpl.
  - by apply digits_char_free.
  - by apply digits_char_free.
Qed.

Lemma toStringZ_inj : Inj (=) (=) toStringZ.
Proof.
  intros x y H. unfold toStringZ in H. apply DecimalZ.to_int_inj.
  apply (f_equal DecimalString.NilEmpty.int_of_string) in H.
  rewrite !DecimalString.NilEmpty.isi in H. by injection H.
Qed.

Lemma color_key_quantise px px' :
  color_key px = color_key px' -> quantise px = quantise px'.
Proof.
  destruct px as [[[x0 x1] x2] a], px' as [[[y0 y1] y2] a'].
  unfold color_key, quantise. intros H.
  apply (f_equal (split_on ",")) in H.
  change (String.append "," ?t) with (String.append (String "," EmptyString) t) in H.
  rewrite !append_cons, !append_nil_l in H.
  rewrite !split_on_app in H by apply toStringZ_comma_free.
  rewrite !split_on_free in H by apply toStringZ_comma_free.
  injection H as H0 H1 H2.
  apply toStringZ_inj in H0, H1, H2. by rewrite H0, H1, H2.
Qed.

Lemma size_list_to_set_remove_dups `{Countable A} (l : list A) :
  size (list_to_set l : gset A) = length (remove_dups l).
Proof.
  rewrite <- (size_list_to_set (C:=gset A) (remove_dups l))
    by apply NoDup_remove_dups.
  f_equal. apply set_eq. intros x.
  by rewrite !elem_of_list_to_set, elem_of_remove_dups.
Qed.

Lemma remove_dups_keys `{Countable A} `{Countable B} (f : A -> B) (g : A -> string)
    (l : list A) :
  (forall x y, g x = g y <-> f x = f y) ->
  length (remove_dups (g <$> l)) = length (remove_dups (f <$> l)).
Proof.
  intros Hfg. induction l as [|x l IH]; [done|].
  rewrite !fmap_cons. simpl.
  assert (Hin : g x ∈ g <$> l <-> f x ∈ f <$> l).
  { rewrite !list_elem_of_fmap. split; intros (y & Hy & ?); exists y;
      (split; [|done]); by apply Hfg. }
  destruct (decide_rel elem_of (g x) (g <$> l)),
           (decide_rel elem_of (f x) (f <$> l)); simpl; try tauto; by rewrite IH.
Qed.

(** X19: [estimateColorComplexity] counts colours in steps of 8: what it
    feeds the thresholds is the number of different triples of the three
    colour channels divided by 8 and rounded down; the key strings never
    merge two such triples, and the alpha byte plays no part. *)
Theorem estimateColorComplexity_counts_buckets data :
  estimateColorComplexity data
  = suggested_colors (size (list_to_set (quantise <$> data) : gset (Z * Z * Z))).
Proof.
  rewrite estimateColorComplexity_set, !size_list_to_set_remove_dups.
  f_equal. apply remove_dups_keys. intros px px'. split.
  - apply color_key_quantise.
  - destruct px as [[[x0 x1] x2] a], px' as [[[y0 y1] y2] a'].
    unfold quantise, color_key. by intros [= -> -> ->].
Qed.

(** * Project storage *)

Lemma outcome_bind_Ok {A B : Type} (x : A) (f : A -> outcome B) :
  (Ok x ≫= f) = f x.
Proof. reflexivity. Qed.

Section ProjectStorageFacts.
Context {Project : Type}.
Variable project_id : Project -> string.
Variable stringify : list Project -> string.
Variable parse : string -> option (list Project).
Variable accepts : string -> bool.

(** What is written with [JSON.stringify] reads back with [JSON.parse],
    and is never the empty string. *)
Hypothesis Hjson :
  forall l, parse (stringify l) = Some l /\ stringify l <> EmptyString.

Lemma getProjects_stringify l :
  getProjects parse (Some (stringify l)) = l.
Proof.
  unfold getProjects. destruct (Hjson l) as [-> Hne].
  by rewrite decide_False.
Qed.

Lemma removelast_take (l : list Project) : removelast l = take (length l - 1) l.
Proof. rewrite removelast_firstn_len. f_equal. lia. Qed.

Lemma retry_save_unfold fuel (l : list Project) saved store :
  retry_save stringify accepts fuel l saved store
  = if negb saved && (1 <? length l)%nat then
      match fuel with
      | O => Throw OutOfFuel
      | S fuel' =>
          let '(saved', store') :=
            saveProjects stringify accepts (removelast l) store in
          retry_save stringify accepts fuel' (removelast l) saved' store'
      end
    else Ok (l, saved, store).
Proof. by destruct fuel. Qed.

Lemma trim_projects_unfold fuel (l : list Project) :
  trim_projects fuel l
  = if (20 <? length l)%nat then
      match fuel with
      | O => Throw OutOfFuel
      | S fuel' => trim_projects fuel' (removelast l)
      end
    else Ok l.
Proof. by destruct fuel. Qed.

Lemma trim_projects_spec fuel : forall l : list Project,
  (length l <= 20 + fuel)%nat -> trim_projects fuel l = Ok (take 20 l).
Proof.
  induction fuel as [|fuel IH]; intros l Hl; rewrite trim_projects_unfold;
    destruct (Nat.ltb_spec 20 (length l)); try lia;
    try (by rewrite take_ge by lia).
  rewrite IH, removelast_take, take_take.
  - do 2 f_equal. lia.
  - rewrite removelast_take, length_take. lia.
Qed.

Lemma retry_save_failed fuel : forall (l : list Project) store,
  (length l <= S fuel)%nat ->
  exists k saved' store',
    retry_save stringify accepts fuel l false store
    = Ok (take k l, saved', store') /\
    (if saved'
     then (1 <= k < length l)%nat /\
          accepts (stringify (take k l)) = true /\
          store' = Some (stringify (take k l)) /\
          forall k', (k < k' < length l)%nat ->
                     accepts (stringify (take k' l)) = false
     else store' = store /\
          forall k', (1 <= k' < length l)%nat ->
                     accepts (stringify (take k' l)) = false).
Proof.
  induction fuel as [|fuel IH]; intros l store Hl;
    rewrite retry_save_unfold;
    destruct (Nat.ltb_spec 1 (length l)) as [Hlt | Hge]; try lia;
    cbn [negb andb].
  - exists (length l), false, store. rewrite take_ge by lia.
    split; [done|]. split; [done|]. intros; lia.
  - unfold saveProjects. rewrite removelast_take.
    set (l' := take (length l - 1) l).
    assert (Hl' : length l' = (length l - 1)%nat)
      by (unfold l'; rewrite length_take; lia).
    assert (Htake : forall j, (j <= length l - 1)%nat -> take j l' = take j l).
    { intros j Hj. unfold l'. rewrite take_take. f_equal. lia. }
    destruct (accepts (stringify l')) eqn:Hacc.
    + exists (length l - 1)%nat, true, (Some (stringify l')). fold l'.
      rewrite retry_save_unfold. cbn [negb andb].
      split; [done|]. split; [lia|]. split; [done|]. split; [done|].
      intros; lia.
    + destruct (IH l' store) as (k & saved' & store' & Hrun & Hend); [lia|].
      rewrite Hrun. destruct saved'.
      * destruct Hend as (Hk1 & Hacc' & -> & Hno).
        exists k, true, (Some (stringify (take k l'))).
        rewrite !Htake by lia. split; [done|].
        split; [lia|]. split; [by rewrite <- Htake by lia|]. split; [done|].
        intros k' Hk'. destruct (decide (k' = length l - 1)%nat) as [-> | Hne].
        -- by fold l'.
        -- rewrite <- Htake by lia. apply Hno. lia.
      * destruct Hend as (-> & Hno).
        assert (Hk : take k l' = take (Nat.min k (length l - 1)) l)
          by (unfold l'; by rewrite take_take).
        exists (Nat.min k (length l - 1)), false, store.
        rewrite Hk. split; [done|]. split; [done|].
        intros k' Hk'. destruct (decide (k' = length l - 1)%nat) as [-> | Hne].
        -- by fold l'.
        -- rewrite <- Htake by lia. apply Hno. lia.
  - exists (length l), false, store. rewrite take_ge by lia.
    split; [done|]. split; [done|]. intros; lia.
Qed.

Lemma addProject_spec project store :
  let all := project :: getProjects parse store in
  exists k saved store',
    addProject stringify parse accepts project store = Ok (store', negb saved) /\
    (1 <= k <= 20)%nat /\ (k <= length all)%nat /\
    (forall k', (k < k' <= 20)%nat -> (k' <= length all)%nat ->
                accepts (stringify (take k' all)) = false) /\
    (if saved
     then accepts (stringify (take k all)) = true /\
          store' = Some (stringify (take k all))
     else store' = store /\ k = 1%nat /\
          accepts (stringify (take 1 all)) = false).
Proof.
  intros all. unfold addProject. fold all.
  rewrite trim_projects_spec by lia. rewrite outcome_bind_Ok.
  set (l := take 20 all).
  assert (Hlen : length l = Nat.min 20 (length all))
    by (unfold l; by rewrite length_take).
  assert (Hall : (1 <= length all)%nat) by (unfold all; simpl; lia).
  assert (Htake : forall j, (j <= 20)%nat -> take j l = take j all).
  { intros j Hj. unfold l. rewrite take_take. f_equal. lia. }
  unfold saveProjects at 1.
  destruct (accepts (stringify l)) eqn:Hacc; cbv beta match.
  - exists (length l), true, (Some (stringify l)).
    assert (Hrun : retry_save stringify accepts (length l) l true (Some (stringify l))
                   = Ok (l, true, Some (stringify l)))
      by (by rewrite retry_save_unfold).
    rewrite Hrun, outcome_bind_Ok. rewrite <- (Htake (length l)), take_ge by lia.
    split; [done|]. split; [lia|]. split; [lia|]. split; [intros; lia|done].
  - destruct (retry_save_failed (length l) l store)
      as (k & saved' & store' & Hrun & Hend); [lia|].
    rewrite Hrun, outcome_bind_Ok.
    destruct saved'.
    + destruct Hend as (Hk1 & Hacc' & -> & Hno).
      exists k, true, (Some (stringify (take k all))).
      rewrite <- (Htake k) by lia.
      split; [done|]. split; [lia|]. split; [lia|]. split; [|done].
      intros k' Hk' Hk''. rewrite <- Htake by lia.
      destruct (decide (k' = length l)) as [-> | Hne].
      * by rewrite take_ge.
      * apply Hno. lia.
    + destruct Hend as (-> & Hno).
      exists 1%nat, false, store.
      split; [done|]. split; [lia|]. split; [lia|].
      assert (Hno' : forall k', (1 <= k' <= 20)%nat -> (k' <= length all)%nat ->
                       accepts (stringify (take k' all)) = false).
      { intros k' Hk' Hk''. rewrite <- Htake by lia.
        destruct (decide (k' = length l)) as [-> | Hne]; [by rewrite take_ge|].
        apply Hno. lia. }
      split; [intros; apply Hno'; lia|]. split; [done|]. split; [done|].
      apply Hno'; lia.
Qed.
(** X20: [addProject] puts the new project first and keeps the longest
    run of newest projects, 20 at most, that the storage accepts: the
    stored list is a prefix of the new project followed by the old list,
    and no longer prefix of at most 20 entries was accepted.  When not
    even the new project alone is accepted the stored item is left as it
    was and the warning is shown. *)
Theorem addProject_keeps_newest project store :
  exists store' warned,
    addProject stringify parse accepts project store = Ok (store', warned) /\
    (warned = true ->
     store' = store /\
     forall k, (1 <= k <= 20)%nat ->
               (k <= length (project :: getProjects parse store))%nat ->
               accepts (stringify (take k (project :: getProjects parse store)))
               = false) /\
    (warned = false ->
     exists k,
       (1 <= k <= 20)%nat /\
       getProjects parse store' = take k (project :: getProjects parse store) /\
       head (getProjects parse store') = Some project /\
       forall k', (k < k' <= 20)%nat ->
                  (k' <= length (project :: getProjects parse store))%nat ->
                  accepts (stringify (take k' (project :: getProjects parse store)))
                  = false).
Proof.
  destruct (addProject_spec project store)
    as (k & saved & store' & Hrun & Hk & Hkl & Hno & Hend).
  exists store', (negb saved). split; [done|].
  destruct saved; simpl; (split; [intros Hw | intros Hw]);
    try discriminate Hw; clear Hw.
  - destruct Hend as (Hacc & ->). exists k.
    split; [done|]. rewrite getProjects_stringify. split; [done|].
    split; [|done]. destruct k; [lia|done].
  - destruct Hend as (-> & -> & Hacc1). split; [done|].
    intros k' Hk' Hk''. destruct (decide (k' = 1%nat)) as [-> | Hne]; [done|].
    apply Hno; [lia|done].
Qed.

End ProjectStorageFacts.

Lemma toy_json (l : list bool) :
  toy_parse (toy_stringify l) = Some l /\ toy_stringify l <> EmptyString.
Proof.
  split; [|done]. unfold toy_parse, toy_stringify. f_equal.
  rewrite list_ascii_of_string_of_list_ascii, <- list_fmap_compose.
  rewrite <- (list_fmap_id l) at 2. apply list_fmap_ext.
  by intros i [|] _.
Qed.

Lemma addProject_keeps_newest_witness :
  (forall l, toy_parse (toy_stringify l) = Some l /\
             toy_stringify l <> EmptyString) /\
  exists store' warned,
    addProject toy_stringify toy_parse toy_accepts true
      (Some (toy_stringify [false; false; true]))
    = Ok (store', warned) /\
    (warned = true ->
     store' = Some (toy_stringify [false; false; true]) /\
     forall k, (1 <= k <= 20)%nat ->
       (k <= length (true :: getProjects toy_parse
                               (Some (toy_stringify [false; false; true]))))%nat ->
       toy_accepts (toy_stringify
                      (take k (true :: getProjects toy_parse
                                         (Some (toy_stringify [false; false; true])))))
       = false) /\
    (warned = false ->
     exists k,
       (1 <= k <= 20)%nat /\
       getProjects toy_parse store'
       = take k (true :: getProjects toy_parse
                           (Some (toy_stringify [false; false; true]))) /\
       head (getProjects toy_parse store') = Some true /\
       forall k', (k < k' <= 20)%nat ->
         (k' <= length (true :: getProjects toy_parse
                                  (Some (toy_stringify [false; false; true]))))%nat ->
         toy_accepts (toy_stringify
                        (take k' (true :: getProjects toy_parse
                                            (Some (toy_stringify [false; false; true])))))
         = false).
Proof.
  split; [exact toy_json|].
  apply (addProject_keeps_newest toy_stringify toy_parse toy_accepts toy_json).
Defined.


(** * The size presets *)

Lemma float_ltb_irrefl x : PrimFloat.ltb x x = false.
Proof.
  rewrite ltb_spec. unfold SFltb.
  destruct (Prim2SF x) as [s|s| |s m e]; simpl; try done.
  - by destruct s.
  - destruct s; rewrite Z.compare_refl, Pos.compare_cont_refl; done.
Qed.

Lemma float_ltb_trans x y z :
  PrimFloat.ltb x y = true -> PrimFloat.ltb y z = true ->
  PrimFloat.ltb x z = true.
Proof.
  rewrite !ltb_spec. unfold SFltb.
  destruct (Prim2SF x) as [s|s| |s m e], (Prim2SF y) as [s'|s'| |s' m' e'],
    (Prim2SF z) as [s''|s''| |s'' m'' e''];
    simpl; try done; try (by destruct s); try (by destruct s');
    try (by destruct s''); try (by destruct s, s'); try (by destruct s', s'');
    try (by destruct s, s''); try (by destruct s, s', s'').
  destruct s, s', s''; try done;
    change (Pos.compare_cont Eq m m') with (Pos.compare m m');
    change (Pos.compare_cont Eq m' m'') with (Pos.compare m' m'');
    change (Pos.compare_cont Eq m m'') with (Pos.compare m m'');
    destruct (Z.compare_spec e e'), (Z.compare_spec e' e''),
      (Z.compare_spec e e''); try done; try lia; subst;
    destruct (Pos.compare_spec m m'), (Pos.compare_spec m' m''),
      (Pos.compare_spec m m''); simpl; try done; try lia.
Qed.

Lemma preset_step_settles r st q :
  PrimFloat.ltb (preset_diff r q) (preset_step r st q).2 = false.
Proof.
  destruct st as [b d]. unfold preset_step. fold (preset_diff r q).
  destruct (PrimFloat.ltb (preset_diff r q) d) eqn:E; simpl; [|done].
  apply float_ltb_irrefl.
Qed.

Lemma preset_step_keeps_settled r st q x :
  PrimFloat.ltb x st.2 = false ->
  PrimFloat.ltb x (preset_step r st q).2 = false.
Proof.
  destruct st as [b d]. unfold preset_step. fold (preset_diff r q). simpl.
  intros Hx. destruct (PrimFloat.ltb (preset_diff r q) d) eqn:E; simpl; [|done].
  destruct (PrimFloat.ltb x (preset_diff r q)) eqn:E'; [|done].
  by rewrite (float_ltb_trans _ _ _ E' E) in Hx.
Qed.

Lemma preset_step_settled r st q :
  PrimFloat.ltb (preset_diff r q) st.2 = false -> preset_step r st q = st.
Proof.
  destruct st as [b d]. unfold preset_step. fold (preset_diff r q). simpl.
  by intros ->.
Qed.

(** The state of the search: the best distance is the distance of the
    best preset, or infinity as long as there is none. *)
Lemma preset_search r l st :
  match st.1 with
  | Some p => st.2 = preset_diff r p
  | None => st.2 = PrimFloat.infinity
  end ->
  match (fold_left (preset_step r) l st).1 with
  | Some p => (fold_left (preset_step r) l st).2 = preset_diff r p /\
              (st.1 = Some p \/ p ∈ l)
  | None => (fold_left (preset_step r) l st).2 = PrimFloat.infinity /\
            st.1 = None
  end /\
  (forall q, q ∈ l ->
             PrimFloat.ltb (preset_diff r q) (fold_left (preset_step r) l st).2
             = false) /\
  (forall x, PrimFloat.ltb x st.2 = false ->
             PrimFloat.ltb x (fold_left (preset_step r) l st).2 = false).
Proof.
  revert st. induction l as [|q l IH]; intros st Hst; cbn [fold_left].
  - split; [|split; [by intros q ?%elem_of_nil|done]].
    destruct st as [[p|] d]; simpl in *; auto.
  - destruct (IH (preset_step r st q)) as (Hbest & Hall & Hkeep).
    { destruct st as [b d]. unfold preset_step. fold (preset_diff r q).
      by destruct (PrimFloat.ltb (preset_diff r q) d). }
    split; [|split].
    + destruct ((fold_left (preset_step r) l (preset_step r st q)).1)
        as [p|] eqn:Ep.
      * destruct Hbest as [Hd Hin]. split; [done|].
        destruct Hin as [Hin | Hin]; [|right; by apply elem_of_cons; right].
        destruct st as [b d]. unfold preset_step in Hin.
        destruct (PrimFloat.ltb _ d); simpl in Hin; [|by left].
        right. injection Hin as <-. apply elem_of_cons; by left.
      * destruct Hbest as [Hd Hnone]. split; [done|].
        destruct st as [b d]. unfold preset_step in Hnone.
        by destruct (PrimFloat.ltb _ d).
    + intros q' [-> | Hq']%elem_of_cons; [|by apply Hall].
      apply Hkeep, preset_step_settles.
    + intros x Hx. by apply Hkeep, preset_step_keeps_settled.
Qed.

(** X22: whatever the aspect ratio of the image (NaN and the infinities
    included), [findBestPreset] returns a preset that no other preset
    beats: none is strictly closer to the image's aspect ratio.  It returns
    no preset only when no distance is below infinity. *)
Theorem findBestPreset_closest (r : float) :
  match findBestPreset r with
  | Some p =>
      p ∈ SIZE_PRESETS /\
      forall q, q ∈ SIZE_PRESETS ->
                PrimFloat.ltb (preset_diff r q) (preset_diff r p) = false
  | None =>
      forall q, q ∈ SIZE_PRESETS ->
                PrimFloat.ltb (preset_diff r q) PrimFloat.infinity = false
  end.
Proof.
  unfold findBestPreset.
  destruct (preset_search r SIZE_PRESETS (None, PrimFloat.infinity))
    as (Hbest & Hall & _); [done|].
  destruct ((fold_left (preset_step r) SIZE_PRESETS
               (None, PrimFloat.infinity)).1) as [p|].
  - destruct Hbest as [Hd [Hin | Hin]]; [done|]. split; [done|].
    intros q Hq. rewrite <- Hd. by apply Hall.
  - destruct Hbest as [Hd _]. intros q Hq. rewrite <- Hd. by apply Hall.
Qed.

(** X23: the presets Pillow and Wall Art are never chosen: their aspect
    ratios are those of Coaster and Ornament, which come first, and a
    preset replaces the best one only when it is strictly closer.  The
    search gives what it gives on the first two presets alone. *)
Theorem findBestPreset_first_two (r : float) :
  findBestPreset r
  = (fold_left (preset_step r) (take 2 SIZE_PRESETS)
       (None, PrimFloat.infinity)).1 /\
  (findBestPreset r = None \/
   name <$> findBestPreset r = Some "Coaster" \/
   name <$> findBestPreset r = Some "Ornament").
Proof.
  assert (Htwo : findBestPreset r
                 = (fold_left (preset_step r) (take 2 SIZE_PRESETS)
                      (None, PrimFloat.infinity)).1).
  { unfold findBestPreset, SIZE_PRESETS. cbn [take fold_left].
    set (st1 := preset_step r _ (mkPreset "Coaster" _ _)).
    set (st2 := preset_step r st1 _).
    rewrite (preset_step_settled r st2 (mkPreset "Pillow" _ _)).
    2:{ change (preset_diff r (mkPreset "Pillow" 120 120))
          with (preset_diff r (mkPreset "Coaster" 50 50)).
        apply preset_step_keeps_settled, preset_step_settles. }
    rewrite (preset_step_settled r st2 (mkPreset "Wall Art" _ _)); [done|].
    change (preset_diff r (mkPreset "Wall Art" 100 125))
      with (preset_diff r (mkPreset "Ornament" 40 50)).
    apply preset_step_settles. }
  split; [done|]. rewrite Htwo.
  destruct (preset_search r (take 2 SIZE_PRESETS) (None, PrimFloat.infinity))
    as (Hbest & _); [done|].
  destruct ((fold_left (preset_step r) (take 2 SIZE_PRESETS)
               (None, PrimFloat.infinity)).1) as [p|]; [|by left].
  right. destruct Hbest as [_ [Hin | Hin]]; [done|].
  cbn [take SIZE_PRESETS] in Hin.
  apply elem_of_cons in Hin as [-> | Hin]; [by left|].
  apply elem_of_cons in Hin as [-> | Hin]; [by right|].
  by apply elem_of_nil in Hin.
Qed.
